(** * A fixed-capacity first-fit memory resource and the queue built on it

    Shallow embedding of [include/memory_resource.hpp]
    ([CustomBlockMemoryResource]) and [include/pmr_queue.hpp] ([PmrQueue]),
    followed by the properties of the allocator and of the queue.

    Conventions.
    - [std::size_t] is the 64-bit unsigned type of an LP64 platform: a [Z]
      in [0, 2^64) whose additions and subtractions wrap ([SizeT.add],
      [SizeT.sub]).
    - A pointer is the address it holds, a [Z]; [nullptr] is address 0.
      Pointer arithmetic ([buffer_ + offset], [byte_ptr - buffer_]) is
      arithmetic on addresses.
    - A member function is a state transformer: it takes the object and
      returns what the call produced (a value, the exception thrown, or
      nothing defined) together with the object after the call. *)

From Stdlib Require Import ZArith List Lia String.
From stdpp Require Import base tactics option list gmap.
Import ListNotations.
Local Open Scope Z_scope.

(** ** Machine integers *)

Module SizeT.
Definition bits : Z := 64.
Definition modulus : Z := 2 ^ bits.
Definition max : Z := modulus - 1.

Definition wrap (x : Z) : Z := x mod modulus.
Definition add (x y : Z) : Z := wrap (x + y).
Definition sub (x y : Z) : Z := wrap (x - y).

Definition in_range (x : Z) : Prop := 0 <= x < modulus.
End SizeT.

(** [alignof(std::max_align_t)] of the x86-64 System V ABI. *)
Definition alignof_max_align_t : Z := 16.

(** ** Exceptions and outcomes *)

(** The exception objects of the two headers: the type and, for those
    that carry one, the message of [what()]. *)
Inductive exception : Type :=
| bad_alloc
| invalid_argument (what : string)
| logic_error (what : string)
| out_of_range (what : string).

(** The [throw] statements of the two headers, under the names the
    specification gives to the failures.  [InvalidConfiguration] carries
    the message, which tells the two throws of the constructor apart;
    [StorageExhausted] is a failure of [::operator new] itself. *)
Inductive failure : Type :=
| InvalidConfiguration (what : string)
| StorageExhausted
| AlignmentExceeded
| OutOfMemory
| ForeignPointer
| DoubleFreeOrUnmanaged
| EmptyContainer.

(** The exception object each [throw] statement builds. *)
Definition exception_of (f : failure) : exception :=
  match f with
  | InvalidConfiguration what => invalid_argument what
  | StorageExhausted => bad_alloc
  | AlignmentExceeded => bad_alloc
  | OutOfMemory => bad_alloc
  | ForeignPointer => logic_error "Pointer does not belong to this resource"
  | DoubleFreeOrUnmanaged => logic_error "Attempt to deallocate unmanaged block"
  | EmptyContainer => out_of_range "Queue is empty"
  end.

(** What a call produces: a value, an exception, or nothing defined (a
    pointer to no object was dereferenced). *)
Inductive outcome (A : Type) : Type :=
| Returns (a : A)
| Throws (f : failure)
| Undefined.
Arguments Returns {A} a.
Arguments Throws {A} f.
Arguments Undefined {A}.

(** A member function of an object of type [S] producing an [A]. *)
Definition method (S A : Type) : Type := S -> outcome A * S.

Definition ret {S A} (a : A) : method S A := fun this => (Returns a, this).
Definition throw {S A} (f : failure) : method S A := fun this => (Throws f, this).
Definition bind {S A B} (m : method S A) (k : A -> method S B) : method S B :=
  fun this =>
    match m this with
    | (Returns a, this') => k a this'
    | (Throws f, this') => (Throws f, this')
    | (Undefined, this') => (Undefined, this')
    end.

Declare Scope method_scope.
Delimit Scope method_scope with method.
Notation "x <- m ;; k" := (bind m (fun x => k))
  (at level 100, m at next level, right associativity) : method_scope.
Notation "m ;;; k" := (bind m (fun _ => k))
  (at level 100, right associativity) : method_scope.

(** ** CustomBlockMemoryResource *)

Record Block : Type := { offset : Z; size : Z }.

Record CustomBlockMemoryResource : Type := {
  capacity_ : Z;
  buffer_alignment_ : Z;
  buffer_ : Z;
  blocks_ : list Block
}.

Definition with_blocks (this : CustomBlockMemoryResource) (bs : list Block)
  : CustomBlockMemoryResource :=
  {| capacity_ := capacity_ this;
     buffer_alignment_ := buffer_alignment_ this;
     buffer_ := buffer_ this;
     blocks_ := bs |}.

(** The constructor (memory_resource.hpp, lines 12-21).  [storage] is what
    the call of the aligned [::operator new] produced: the address of the
    buffer, or the exception it threw.  It is only looked at after both
    checks passed. *)
Definition construct (capacity_bytes buffer_alignment : Z) (storage : outcome Z)
  : outcome CustomBlockMemoryResource :=
  if capacity_bytes =? 0 then
    Throws (InvalidConfiguration "Capacity must be greater than zero")
  else if negb (Z.land buffer_alignment (SizeT.sub buffer_alignment 1) =? 0) then
    Throws (InvalidConfiguration "Alignment must be a power of two")
  else
    match storage with
    | Returns p =>
        Returns {| capacity_ := capacity_bytes;
                   buffer_alignment_ := buffer_alignment;
                   buffer_ := p;
                   blocks_ := [] |}
    | Throws f => Throws f
    | Undefined => Undefined
    end.

Definition capacity (this : CustomBlockMemoryResource) : Z := capacity_ this.

(** [align_offset] (lines 40-46). *)
Definition align_offset (offset alignment : Z) : Z :=
  if alignment =? 0 then offset
  else
    let remainder := offset mod alignment in
    if remainder =? 0 then offset
    else SizeT.add offset (SizeT.sub alignment remainder).

(** [std::lower_bound] over [blocks_] with the comparison
    [lhs.offset < rhs]: the position of the first block whose offset is not
    below [value]. *)
Fixpoint lower_bound (blocks : list Block) (value : Z) : nat :=
  match blocks with
  | [] => 0%nat
  | lhs :: rest =>
      if offset lhs <? value then S (lower_bound rest value) else 0%nat
  end.

(** [std::vector::insert] before position [pos]. *)
Definition vector_insert {A} (pos : nat) (x : A) (v : list A) : list A :=
  take pos v ++ x :: drop pos v.

(** [commit_block] (lines 97-106). *)
Definition commit_block (offset size : Z) : method CustomBlockMemoryResource Z :=
  fun this =>
    let new_block := {| offset := offset; size := size |} in
    let insert_pos := lower_bound (blocks_ this) offset in
    (Returns (buffer_ this + offset),
     with_blocks this (vector_insert insert_pos new_block (blocks_ this))).

(** The [for] loop of [do_allocate] (lines 58-64): [inl aligned_offset]
    when the loop returns from inside (the gap before some block fits),
    [inr current_offset] when it runs to the end of [blocks_]. *)
Fixpoint scan_blocks (blocks : list Block) (current_offset bytes required_alignment : Z)
  : Z + Z :=
  match blocks with
  | [] => inr current_offset
  | block :: rest =>
      let aligned_offset := align_offset current_offset required_alignment in
      if SizeT.add aligned_offset bytes <=? offset block then inl aligned_offset
      else scan_blocks rest (SizeT.add (offset block) (size block))
                       bytes required_alignment
  end.

(** [if (bytes == 0) bytes = 1;] *)
Definition normalized_bytes (bytes : Z) : Z := if bytes =? 0 then 1 else bytes.

(** [alignment == 0 ? alignof(std::max_align_t) : alignment] *)
Definition required_alignment (alignment : Z) : Z :=
  if alignment =? 0 then alignof_max_align_t else alignment.

(** [do_allocate] (lines 48-71). *)
Definition do_allocate (bytes alignment : Z) : method CustomBlockMemoryResource Z :=
  fun this =>
    let bytes := normalized_bytes bytes in
    let required_alignment := required_alignment alignment in
    if required_alignment >? buffer_alignment_ this then throw AlignmentExceeded this
    else
      match scan_blocks (blocks_ this) 0 bytes required_alignment with
      | inl aligned_offset => commit_block aligned_offset bytes this
      | inr current_offset =>
          let aligned_offset := align_offset current_offset required_alignment in
          if SizeT.add aligned_offset bytes >? capacity_ this then
            throw OutOfMemory this
          else commit_block aligned_offset bytes this
      end.

(** The loop of [do_deallocate] (lines 84-89): erase the first block whose
    offset is [off]; [None] when the loop ends without finding one. *)
Fixpoint erase_block (blocks : list Block) (off : Z) : option (list Block) :=
  match blocks with
  | [] => None
  | it :: rest =>
      if offset it =? off then Some rest
      else option_map (cons it) (erase_block rest off)
  end.

(** [do_deallocate] (lines 73-91). *)
Definition do_deallocate (ptr : Z) (size_hint alignment_hint : Z)
  : method CustomBlockMemoryResource unit :=
  fun this =>
    if ptr =? 0 then ret tt this
    else if (ptr <? buffer_ this) || (ptr >=? buffer_ this + capacity_ this) then
      throw ForeignPointer this
    else
      let offset := ptr - buffer_ this in
      match erase_block (blocks_ this) offset with
      | Some blocks' => (Returns tt, with_blocks this blocks')
      | None => throw DoubleFreeOrUnmanaged this
      end.

(** [std::pmr::memory_resource]: the interface a resource implements.
    Its public [allocate] and [deallocate] forward to the virtual
    [do_allocate] and [do_deallocate] of the implementation. *)
Class memory_resource (R : Type) : Type := {
  allocate : Z -> Z -> method R Z;
  deallocate : Z -> Z -> Z -> method R unit
}.

#[export] Instance CustomBlockMemoryResource_resource
  : memory_resource CustomBlockMemoryResource :=
  {| allocate := do_allocate; deallocate := do_deallocate |}.

(** *** Histories of calls *)

Inductive call : Type :=
| Allocate (bytes alignment : Z)
| Deallocate (ptr size_hint alignment_hint : Z).

Definition step (c : call) (this : CustomBlockMemoryResource)
  : CustomBlockMemoryResource :=
  match c with
  | Allocate bytes alignment => snd (do_allocate bytes alignment this)
  | Deallocate ptr sh ah => snd (do_deallocate ptr sh ah this)
  end.

Definition run (calls : list call) (this : CustomBlockMemoryResource)
  : CustomBlockMemoryResource :=
  fold_left (fun s c => step c s) calls this.

(** The resource of the tests: [CustomBlockMemoryResource resource(cap)]
    with the default alignment 64, its buffer at address [base]. *)
Definition fresh (cap base : Z) : CustomBlockMemoryResource :=
  {| capacity_ := cap; buffer_alignment_ := 64; buffer_ := base; blocks_ := [] |}.

(** ** PmrQueue (pmr_queue.hpp) *)

Section PmrQueue.
Context {T R : Type} `{memory_resource R}.

(** [sizeof(Node)] and [alignof(Node)], fixed by the element type. *)
Variables sizeof_Node alignof_Node : Z.

Record Node : Type := { value : T; next : Z }.

(** The queue object, with the two things its pointers refer to: the
    resource behind [allocator_] and the nodes constructed in the storage
    obtained from it, by address. *)
Record PmrQueue : Type := {
  allocator_ : R;
  nodes : gmap Z Node;
  head_ : Z;
  tail_ : Z;
  size_ : Z
}.

(** [PmrQueue(resource)] *)
Definition new_queue (resource : R) : PmrQueue :=
  {| allocator_ := resource; nodes := ∅; head_ := 0; tail_ := 0; size_ := 0 |}.

(** [empty] (line 146). *)
Definition empty (this : PmrQueue) : bool := head_ this =? 0.

(** [tail_->next = new_node] *)
Definition set_next (new_node : Z) (n : Node) : Node :=
  {| value := value n; next := new_node |}.

(** [emplace] (lines 100-112): [allocator_.allocate(1)], the construction
    of the node, then the linking. *)
Definition emplace (v : T) : method PmrQueue unit := fun this =>
  match allocate sizeof_Node alignof_Node (allocator_ this) with
  | (Throws f, resource) =>
      (Throws f,
       {| allocator_ := resource; nodes := nodes this; head_ := head_ this;
          tail_ := tail_ this; size_ := size_ this |})
  | (Undefined, resource) =>
      (Undefined,
       {| allocator_ := resource; nodes := nodes this; head_ := head_ this;
          tail_ := tail_ this; size_ := size_ this |})
  | (Returns new_node, resource) =>
      let constructed := <[new_node := {| value := v; next := 0 |}]> (nodes this) in
      if tail_ this =? 0 then
        (Returns tt,
         {| allocator_ := resource; nodes := constructed; head_ := new_node;
            tail_ := new_node; size_ := SizeT.add (size_ this) 1 |})
      else
        match constructed !! tail_ this with
        | None =>
            (Undefined,
             {| allocator_ := resource; nodes := constructed; head_ := head_ this;
                tail_ := tail_ this; size_ := size_ this |})
        | Some _ =>
            (Returns tt,
             {| allocator_ := resource;
                nodes := alter (set_next new_node) (tail_ this) constructed;
                head_ := head_ this; tail_ := new_node;
                size_ := SizeT.add (size_ this) 1 |})
        end
  end.

Definition push (v : T) : method PmrQueue unit := emplace v.

(** [pop] (lines 117-130).  [allocator_.deallocate] is the member of
    [std::pmr::polymorphic_allocator], which is [noexcept]: an exception
    of the resource's [deallocate] does not leave [pop], it ends the
    program at line 128, after [head_] and [tail_] were advanced and the
    node destroyed, before [--size_].  The outcome [Throws f] of that
    branch stands for this end, with the failure that caused it and the
    members as they are at that line; only [Throws EmptyContainer] is an
    exception a caller can catch. *)
Definition pop : method PmrQueue unit := fun this =>
  if empty this then throw EmptyContainer this
  else
    let old_head := head_ this in
    match nodes this !! old_head with
    | None => (Undefined, this)
    | Some n =>
        let head' := next n in
        let tail' := if head' =? 0 then 0 else tail_ this in
        let destroyed := delete old_head (nodes this) in
        match deallocate old_head sizeof_Node alignof_Node (allocator_ this) with
        | (Returns _, resource) =>
            (Returns tt,
             {| allocator_ := resource; nodes := destroyed; head_ := head';
                tail_ := tail'; size_ := SizeT.sub (size_ this) 1 |})
        | (Throws f, resource) =>
            (Throws f,
             {| allocator_ := resource; nodes := destroyed; head_ := head';
                tail_ := tail'; size_ := size_ this |})
        | (Undefined, resource) =>
            (Undefined,
             {| allocator_ := resource; nodes := destroyed; head_ := head';
                tail_ := tail'; size_ := size_ this |})
        end
    end.

(** [front] (lines 132-137). *)
Definition front : method PmrQueue T := fun this =>
  if empty this then throw EmptyContainer this
  else
    match nodes this !! head_ this with
    | None => (Undefined, this)
    | Some n => ret (value n) this
    end.

(** *** The iterator (lines 25-63, 148-149) *)

Definition begin (this : PmrQueue) : Z := head_ this.
Definition end_ (this : PmrQueue) : Z := 0.

(** [operator*] *)
Definition iterator_deref (this : PmrQueue) (node_ : Z) : outcome T :=
  match nodes this !! node_ with
  | Some n => Returns (value n)
  | None => Undefined
  end.

(** [operator++] *)
Definition iterator_incr (this : PmrQueue) (node_ : Z) : outcome Z :=
  if node_ =? 0 then Returns node_
  else
    match nodes this !! node_ with
    | Some n => Returns (next n)
    | None => Undefined
    end.

(** [for (T v : queue) collected.push_back(v)], each round of the loop
    taking one unit of [fuel]; [None] when the fuel runs out before the
    iterator reaches [end()]. *)
Fixpoint collect (fuel : nat) (this : PmrQueue) (it : Z) : option (outcome (list T)) :=
  if it =? end_ this then Some (Returns [])
  else
    match fuel with
    | O => None
    | S fuel' =>
        match iterator_deref this it, iterator_incr this it with
        | Returns v, Returns it' =>
            match collect fuel' this it' with
            | Some (Returns vs) => Some (Returns (v :: vs))
            | other => other
            end
        | _, _ => Some Undefined
        end
    end.

(** *** Sequences of calls *)

Inductive queue_call : Type :=
| Push (v : T)
| Pop.

Fixpoint run_queue (calls : list queue_call) : method PmrQueue unit :=
  match calls with
  | [] => ret tt
  | Push v :: rest => (push v ;;; run_queue rest)%method
  | Pop :: rest => (pop ;;; run_queue rest)%method
  end.

Fixpoint push_all (vs : list T) : method PmrQueue unit :=
  match vs with
  | [] => ret tt
  | v :: rest => (push v ;;; push_all rest)%method
  end.

(** [k] rounds of [front()] then [pop()], with the values [front()]
    returned. *)
Fixpoint drain (k : nat) : method PmrQueue (list T) :=
  match k with
  | O => ret []
  | S k' =>
      (v <- front ;;
       pop ;;;
       vs <- drain k' ;;
       ret (v :: vs))%method
  end.
End PmrQueue.

Arguments Node : clear implicits.
Arguments PmrQueue : clear implicits.
Arguments queue_call : clear implicits.

(** ** The words of the specification *)

(** Rounding rule of section 4.2, on unbounded integers. *)
Definition align_up (x a : Z) : Z :=
  if (a =? 0) || (x mod a =? 0) then x else x + (a - x mod a).

(** First-fit scan of section 4.2, steps 1 to 4, on unbounded integers:
    [Some candidate] for the first gap that fits, [None] when neither a gap
    before a record nor the final gap up to [capacity] fits. *)
Fixpoint first_fit (records : list Block)
    (cursor requested_bytes requested_alignment capacity : Z) : option Z :=
  let candidate := align_up cursor requested_alignment in
  match records with
  | [] =>
      if candidate + requested_bytes <=? capacity then Some candidate else None
  | record :: rest =>
      if candidate + requested_bytes <=? offset record then Some candidate
      else first_fit rest (offset record + size record)
                     requested_bytes requested_alignment capacity
  end.

(** The byte ranges of two records do not intersect. *)
Definition disjoint (a b : Block) : Prop :=
  offset a + size a <= offset b \/ offset b + size b <= offset a.

Definition ranges_disjoint (records : list Block) : Prop :=
  forall (i j : nat) (a b : Block),
    i <> j -> records !! i = Some a -> records !! j = Some b -> disjoint a b.

Definition sorted_by_offset (records : list Block) : Prop :=
  forall (i j : nat) (a b : Block),
    (i < j)%nat -> records !! i = Some a -> records !! j = Some b ->
    offset a <= offset b.

Definition within_capacity (cap : Z) (records : list Block) : Prop :=
  forall b, In b records -> 0 <= offset b /\ offset b + size b <= cap.

Definition is_power_of_two (a : Z) : Prop :=
  exists k, 0 <= k < SizeT.bits /\ a = 2 ^ k.


(** ** The occupied-block index *)

(** The records lie one after the other between [cursor] and [cap], each
    with a positive size: sortedness, disjointness and the capacity bound
    in one chain. *)
Fixpoint chain (cap cursor : Z) (records : list Block) : Prop :=
  match records with
  | [] => cursor <= cap
  | b :: rest =>
      cursor <= offset b /\ 0 < size b /\ chain cap (offset b + size b) rest
  end.

Definition index_ok (this : CustomBlockMemoryResource) : Prop :=
  chain (capacity_ this) 0 (blocks_ this).

(** A request that keeps every sum of the scan below [2^64]. *)
Definition fits_word (this : CustomBlockMemoryResource) (bytes : Z) : Prop :=
  0 <= bytes /\
  capacity_ this + buffer_alignment_ this + normalized_bytes bytes <= SizeT.modulus.

(** What the scan of [do_allocate] decides, from cursor [cursor] on. *)
Definition placement (blocks : list Block) (cursor bytes alignment cap : Z)
  : option Z :=
  match scan_blocks blocks cursor bytes alignment with
  | inl aligned_offset => Some aligned_offset
  | inr current_offset =>
      let aligned_offset := align_offset current_offset alignment in
      if SizeT.add aligned_offset bytes >? cap then None else Some aligned_offset
  end.

Definition same_arena (a b : CustomBlockMemoryResource) : Prop :=
  capacity_ b = capacity_ a /\
  buffer_alignment_ b = buffer_alignment_ a /\
  buffer_ b = buffer_ a.

Definition call_fits_word (this : CustomBlockMemoryResource) (c : call) : Prop :=
  match c with
  | Allocate bytes alignment => fits_word this bytes /\ 0 <= alignment
  | Deallocate _ _ _ => True
  end.

(** The cursors the scan of [do_allocate] can stand at: the start of the
    arena and the end of each block, as the 64-bit sum the code forms. *)
Definition scan_cursor (blocks : list Block) (start cursor : Z) : Prop :=
  cursor = start \/
  exists b, In b blocks /\ cursor = SizeT.add (offset b) (size b).

Definition in_arena (this : CustomBlockMemoryResource) (ptr : Z) : Prop :=
  buffer_ this <= ptr < buffer_ this + capacity_ this.

(** The call ends in an exception. *)
Definition call_throws (c : call) (this : CustomBlockMemoryResource) : Prop :=
  match c with
  | Allocate bytes alignment =>
      exists f, fst (do_allocate bytes alignment this) = Throws f
  | Deallocate ptr sh ah =>
      exists f, fst (do_deallocate ptr sh ah this) = Throws f
  end.

(** A request so large that its sum with a small offset wraps. *)
Definition huge : Z := SizeT.max - 7.

(** ** What the queue asks of its resource *)

(** [valid r live]: the resource is in a state in which every address of
    [live] is a block it handed out and has not got back.  A resource is
    lawful for requests of [bytes] bytes at [alignment] when, from a valid
    state, a returned block is not null and not live, and a live block is
    taken back. *)
Class lawful_resource {R : Type} `{memory_resource R}
    (bytes alignment : Z) (valid : R -> gset Z -> Prop) : Prop := {
  allocate_fresh r live p r' :
    valid r live -> allocate bytes alignment r = (Returns p, r') ->
    p <> 0 /\ (p ∉ live) /\ valid r' ({[p]} ∪ live);
  allocate_failed r live f r' :
    valid r live -> allocate bytes alignment r = (Throws f, r') -> valid r' live;
  deallocate_live r live p :
    valid r live -> p ∈ live ->
    exists r', deallocate p bytes alignment r = (Returns tt, r') /\
               valid r' (live ∖ {[p]})
}.

(** Validity for [CustomBlockMemoryResource]: the index invariant, a
    request size that fits the word, a buffer that is not at address 0,
    and a record for every live address. *)
Definition custom_valid (bytes : Z) (r : CustomBlockMemoryResource)
    (live : gset Z) : Prop :=
  index_ok r /\ fits_word r bytes /\ 0 < buffer_ r /\
  forall p, p ∈ live -> exists b, In b (blocks_ r) /\ p = buffer_ r + offset b.

(** ** The queue as a list *)

Section Represents.
Context {T R : Type} `{memory_resource R}.

(** The nodes from address [p] on are the cells [(address, value)], in
    order, the last one with a null [next]. *)
Fixpoint linked (mem : gmap Z (Node T)) (p : Z) (cells : list (Z * T)) : Prop :=
  match cells with
  | [] => p = 0
  | (a, v) :: rest =>
      p = a /\ a <> 0 /\
      exists nxt, mem !! a = Some {| value := v; next := nxt |} /\
                  linked mem nxt rest
  end.

Definition represents (valid : R -> gset Z -> Prop)
    (q : PmrQueue T R) (cells : list (Z * T)) : Prop :=
  linked (nodes q) (head_ q) cells /\
  NoDup (cells.*1) /\
  tail_ q = List.last (cells.*1) 0 /\
  size_ q = SizeT.wrap (Z.of_nat (length cells)) /\
  valid (allocator_ q) (list_to_set (cells.*1)).

(** The same calls on a list: a push appends, a pop removes the first. *)
Fixpoint list_after (calls : list (queue_call T)) (vs : list T) : list T :=
  match calls with
  | [] => vs
  | Push v :: rest => list_after rest (vs ++ [v])
  | Pop :: rest => list_after rest (tail vs)
  end.
End Represents.

(** ** Free space, as the index shows it *)

(** [n] bytes from offset [o] lie within the capacity and meet no record of
    the index. *)
Definition free_at (this : CustomBlockMemoryResource) (o n : Z) : Prop :=
  0 <= o /\ o + n <= capacity_ this /\
  forall b, In b (blocks_ this) -> o + n <= offset b \/ offset b + size b <= o.

(** The bytes the records of the index occupy. *)
Definition total_size (records : list Block) : Z :=
  fold_right (fun b acc => size b + acc) 0 records.

(** ** The end of a queue *)

Section PmrQueueTeardown.
Context {T R : Type} `{memory_resource R}.
Variables sizeof_Node alignof_Node : Z.

(** [destroy_all] (pmr_queue.hpp, lines 157-161), the body of the
    destructor (lines 96-98): [while (!empty()) pop();], each round taking
    one unit of [fuel], [None] when the fuel runs out.  The function is
    [noexcept]: an exception that leaves [pop] ends the program, and the
    outcome [Throws f] stands for that end, with the failure that caused
    it. *)
Fixpoint destroy_all (fuel : nat) (this : PmrQueue T R)
  : option (outcome unit * PmrQueue T R) :=
  if empty this then Some (Returns tt, this)
  else
    match fuel with
    | O => None
    | S fuel' =>
        match pop sizeof_Node alignof_Node this with
        | (Returns _, this') => destroy_all fuel' this'
        | (Throws f, this') => Some (Throws f, this')
        | (Undefined, this') => Some (Undefined, this')
        end
    end.

End PmrQueueTeardown.


(** The queue represents [cells] and the nodes that exist are those of the
    cells. *)
Definition owns {T R : Type} `{memory_resource R} (valid : R -> gset Z -> Prop)
    (q : PmrQueue T R) (cells : list (Z * T)) : Prop :=
  represents valid q cells /\ dom (nodes q) = list_to_set (cells.*1).

(** The pushes and the pops of a sequence of calls. *)
Fixpoint pushes {T} (calls : list (queue_call T)) : nat :=
  match calls with
  | [] => 0%nat
  | Push _ :: rest => S (pushes rest)
  | Pop :: rest => pushes rest
  end.

Fixpoint pops {T} (calls : list (queue_call T)) : nat :=
  match calls with
  | [] => 0%nat
  | Push _ :: rest => pops rest
  | Pop :: rest => S (pops rest)
  end.

(** ** Queue objects and what they point to *)

Section PmrQueueObjects.
Context {T R : Type} `{memory_resource R}.

(** The members of a [PmrQueue] object, [allocator_] as the address of the
    memory resource it points to. *)
Record QueueObject : Type := {
  allocator_ptr : Z;
  head_ptr : Z;
  tail_ptr : Z;
  size_count : Z
}.

(** What a program with several queues holds: the memory resources and
    the queue objects, by address, and the nodes. *)
Record Store : Type := {
  resources : gmap Z R;
  node_store : gmap Z (Node T);
  queues : gmap Z QueueObject
}.

(** The object [o] together with what its pointers refer to in [s]; [None]
    when [allocator_] points to no resource. *)
Definition view (s : Store) (o : QueueObject) : option (PmrQueue T R) :=
  match resources s !! allocator_ptr o with
  | Some r =>
      Some {| allocator_ := r; nodes := node_store s; head_ := head_ptr o;
              tail_ := tail_ptr o; size_ := size_count o |}
  | None => None
  end.

(** [other.head_ = nullptr; other.tail_ = nullptr; other.size_ = 0;] *)
Definition moved_from (o : QueueObject) : QueueObject :=
  {| allocator_ptr := allocator_ptr o; head_ptr := 0; tail_ptr := 0; size_count := 0 |}.

(** The move constructor (pmr_queue.hpp, lines 71-79), building the
    object at address [this] from the one at [other]. *)
Definition move_construct (this other : Z) : method Store unit := fun s =>
  match queues s !! other with
  | None => (Undefined, s)
  | Some o =>
      (Returns tt,
       {| resources := resources s; node_store := node_store s;
          queues := <[other := moved_from o]> (<[this := o]> (queues s)) |})
  end.

(** The move assignment (lines 81-94) has no embedding: line 86 assigns
    [allocator_], a [std::pmr::polymorphic_allocator], whose copy
    assignment is deleted, so the member cannot be instantiated and no
    program calls it. *)

(** The members [o] describe the cells [cells] in the nodes [mem]. *)
Definition laid_out (mem : gmap Z (Node T)) (o : QueueObject)
    (cells : list (Z * T)) : Prop :=
  linked mem (head_ptr o) cells /\
  NoDup (cells.*1) /\
  tail_ptr o = List.last (cells.*1) 0 /\
  size_count o = SizeT.wrap (Z.of_nat (length cells)).
End PmrQueueObjects.

Arguments QueueObject : clear implicits.
Arguments Store : clear implicits.

(** * Properties of the memory resource *)

Example construct_fresh :
  construct 128 64 (Returns 4096) = Returns (fresh 128 4096).
Proof. reflexivity. Qed.

(** [FixedMemoryResourceTest.ReusesSameOffset] *)
Example test_ReusesSameOffset :
  let r0 := fresh 128 4096 in
  let '(first, r1) := do_allocate 16 1 r0 in
  let '(second, r2) := do_allocate 16 1 r1 in
  let '(_, r3) := do_deallocate 4096 16 1 r2 in
  let '(reused, r4) := do_allocate 8 1 r3 in
  first = Returns 4096 /\ second = Returns (4096 + 16) /\ reused = first.
Proof. vm_compute. auto. Qed.

(** [FixedMemoryResourceTest.ThrowsOnOverflow] *)
Example test_ThrowsOnOverflow :
  let r0 := fresh 32 4096 in
  let r2 := run [Allocate 16 1; Allocate 16 1] r0 in
  fst (do_allocate 1 1 r2) = Throws OutOfMemory /\
  exception_of OutOfMemory = bad_alloc.
Proof. vm_compute. auto. Qed.

(** ** Arithmetic of [align_offset] *)

Lemma modulus_pos : 0 < SizeT.modulus.
Proof. reflexivity. Qed.

Lemma wrap_range x : SizeT.in_range (SizeT.wrap x).
Proof. apply Z.mod_pos_bound, modulus_pos. Qed.

Lemma wrap_small x : SizeT.in_range x -> SizeT.wrap x = x.
Proof. intros H. apply Z.mod_small, H. Qed.

Lemma add_range x y : SizeT.in_range (SizeT.add x y).
Proof. apply wrap_range. Qed.

Lemma add_small x y :
  0 <= x -> 0 <= y -> x + y < SizeT.modulus -> SizeT.add x y = x + y.
Proof. intros. apply wrap_small. unfold SizeT.in_range. lia. Qed.

Lemma align_up_bounds x a :
  0 < a -> x <= align_up x a < x + a.
Proof.
  intros Ha. unfold align_up.
  pose proof (Z.mod_pos_bound x a Ha) as Hr.
  destruct (a =? 0) eqn:E0; [apply Z.eqb_eq in E0; lia|]. simpl.
  destruct (x mod a =? 0) eqn:E; [lia|].
  apply Z.eqb_neq in E. lia.
Qed.

Lemma align_up_multiple x a : 0 < a -> align_up x a mod a = 0.
Proof.
  intros Ha. unfold align_up.
  destruct (a =? 0) eqn:E0; [apply Z.eqb_eq in E0; lia|]. simpl.
  destruct (x mod a =? 0) eqn:E; [now apply Z.eqb_eq in E|].
  replace (x + (a - x mod a)) with (x - x mod a + 1 * a) by lia.
  rewrite Z.mod_add by lia.
  rewrite Zminus_mod, Z.mod_mod, Z.sub_diag by lia.
  apply Z.mod_0_l. lia.
Qed.

(** The code's rounding is the rule of the specification reduced to the
    64-bit word. *)
Lemma align_offset_wrap x a :
  SizeT.in_range x -> align_offset x a = SizeT.wrap (align_up x a).
Proof.
  intros Hx. unfold align_offset, align_up.
  destruct (a =? 0); simpl; [now rewrite wrap_small|].
  destruct (x mod a =? 0); [now rewrite wrap_small|].
  unfold SizeT.add, SizeT.sub, SizeT.wrap.
  rewrite Zplus_mod_idemp_r. reflexivity.
Qed.

Lemma align_offset_range x a : SizeT.in_range x -> SizeT.in_range (align_offset x a).
Proof. intros Hx. rewrite align_offset_wrap by assumption. apply wrap_range. Qed.

Lemma align_offset_no_wrap x a :
  0 <= x -> 0 < a -> x + a <= SizeT.modulus -> align_offset x a = align_up x a.
Proof.
  intros Hx Ha Hle.
  pose proof (align_up_bounds x a Ha).
  rewrite align_offset_wrap by (unfold SizeT.in_range; lia).
  apply wrap_small. unfold SizeT.in_range. lia.
Qed.

Lemma power_of_two_pos a : is_power_of_two a -> 0 < a.
Proof. intros (k & Hk & ->). apply Z.pow_pos_nonneg; lia. Qed.

Lemma power_of_two_divides_modulus a : is_power_of_two a -> (a | SizeT.modulus).
Proof.
  intros (k & Hk & ->). unfold SizeT.bits in Hk.
  exists (2 ^ (64 - k)). unfold SizeT.modulus, SizeT.bits.
  rewrite <- Z.pow_add_r by lia. f_equal. lia.
Qed.

Lemma align_offset_multiple x a :
  SizeT.in_range x -> is_power_of_two a -> align_offset x a mod a = 0.
Proof.
  intros Hx Ha.
  pose proof (power_of_two_pos a Ha) as Hpos.
  rewrite align_offset_wrap by assumption. unfold SizeT.wrap.
  rewrite Z.mod_mod_divide by (apply power_of_two_divides_modulus; assumption).
  apply align_up_multiple; lia.
Qed.

(** ** The scan and the chain *)

Lemma do_allocate_placement bytes alignment this :
  do_allocate bytes alignment this =
  if required_alignment alignment >? buffer_alignment_ this then
    (Throws AlignmentExceeded, this)
  else
    match placement (blocks_ this) 0 (normalized_bytes bytes)
                    (required_alignment alignment) (capacity_ this) with
    | Some off => commit_block off (normalized_bytes bytes) this
    | None => (Throws OutOfMemory, this)
    end.
Proof.
  unfold do_allocate, placement, throw.
  destruct (required_alignment alignment >? buffer_alignment_ this); [reflexivity|].
  destruct (scan_blocks _ _ _ _); [reflexivity|].
  destruct (SizeT.add _ _ >? capacity_ this); reflexivity.
Qed.

Lemma placement_cons b rest cursor bytes alignment cap :
  placement (b :: rest) cursor bytes alignment cap =
  if SizeT.add (align_offset cursor alignment) bytes <=? offset b
  then Some (align_offset cursor alignment)
  else placement rest (SizeT.add (offset b) (size b)) bytes alignment cap.
Proof.
  unfold placement. simpl.
  destruct (SizeT.add (align_offset cursor alignment) bytes <=? offset b); reflexivity.
Qed.

Lemma vector_insert_lower_bound b rest (x : Block) v :
  vector_insert (lower_bound (b :: rest) v) x (b :: rest) =
  if offset b <? v then b :: vector_insert (lower_bound rest v) x rest
  else x :: b :: rest.
Proof. simpl. destruct (offset b <? v); reflexivity. Qed.

Lemma chain_cursor_le cap cursor records :
  chain cap cursor records -> cursor <= cap.
Proof.
  revert cursor. induction records as [|b rest IH]; simpl; intros cursor H; [lia|].
  destruct H as (H1 & H2 & H3). apply IH in H3. lia.
Qed.

Lemma chain_weaken cap cursor cursor' records :
  cursor' <= cursor -> chain cap cursor records -> chain cap cursor' records.
Proof. destruct records; simpl; intros; intuition lia. Qed.

Lemma chain_Forall cap cursor records :
  chain cap cursor records ->
  Forall (fun b => cursor <= offset b /\ 0 < size b /\ offset b + size b <= cap) records.
Proof.
  revert cursor. induction records as [|b rest IH]; simpl; intros cursor H.
  - constructor.
  - destruct H as (H1 & H2 & H3). constructor.
    + pose proof (chain_cursor_le _ _ _ H3). lia.
    + eapply Forall_impl; [apply IH, H3|]. simpl. intros; lia.
Qed.

(** Under [chain] and for a request that fits the word, the code's scan
    is the first-fit scan of the specification. *)
Lemma placement_first_fit cap records : forall cursor bytes alignment,
  chain cap cursor records -> 0 <= cursor -> 0 < alignment -> 0 < bytes ->
  cap + alignment + bytes <= SizeT.modulus ->
  placement records cursor bytes alignment cap =
  first_fit records cursor bytes alignment cap.
Proof.
  induction records as [|b rest IH]; intros cursor bytes alignment Hc Hcur Ha Hb Hw.
  - simpl in Hc. unfold placement; simpl.
    pose proof (align_up_bounds cursor alignment Ha).
    rewrite align_offset_no_wrap by lia.
    rewrite add_small by lia.
    destruct (Z.gtb_spec (align_up cursor alignment + bytes) cap);
      destruct (Z.leb_spec (align_up cursor alignment + bytes) cap);
      (reflexivity || lia).
  - rewrite placement_cons. cbn [first_fit].
    destruct Hc as (H1 & H2 & H3).
    pose proof (chain_cursor_le _ _ _ H3).
    pose proof (align_up_bounds cursor alignment Ha).
    rewrite align_offset_no_wrap by lia.
    rewrite add_small by lia.
    destruct (align_up cursor alignment + bytes <=? offset b); [reflexivity|].
    rewrite add_small by lia.
    apply IH; (assumption || lia).
Qed.

(** Recording the block chosen by first fit keeps the chain. *)
Lemma first_fit_chain cap records : forall cursor bytes alignment off,
  chain cap cursor records -> 0 < alignment -> 0 < bytes ->
  first_fit records cursor bytes alignment cap = Some off ->
  cursor <= off /\
  chain cap cursor
    (vector_insert (lower_bound records off) {| offset := off; size := bytes |} records).
Proof.
  induction records as [|b rest IH]; intros cursor bytes alignment off Hc Ha Hb Hff.
  - simpl in *. pose proof (align_up_bounds cursor alignment Ha).
    destruct (Z.leb_spec (align_up cursor alignment + bytes) cap); [|discriminate].
    injection Hff as <-. unfold vector_insert. simpl. lia.
  - cbn [first_fit] in Hff. destruct Hc as (H1 & H2 & H3).
    pose proof (align_up_bounds cursor alignment Ha).
    rewrite vector_insert_lower_bound.
    destruct (Z.leb_spec (align_up cursor alignment + bytes) (offset b)).
    + injection Hff as <-.
      destruct (Z.ltb_spec (offset b) (align_up cursor alignment)); [lia|].
      simpl. intuition lia.
    + destruct (IH _ _ _ _ H3 Ha Hb Hff) as [Hle Hch].
      destruct (Z.ltb_spec (offset b) off); [|lia].
      simpl. intuition lia.
Qed.

Lemma erase_block_chain cap records : forall cursor off records',
  chain cap cursor records -> erase_block records off = Some records' ->
  chain cap cursor records'.
Proof.
  induction records as [|b rest IH]; simpl; intros cursor off records' Hc He;
    [discriminate|].
  destruct Hc as (H1 & H2 & H3).
  destruct (offset b =? off).
  - injection He as <-. eapply chain_weaken; [|exact H3]. lia.
  - destruct (erase_block rest off) as [rest'|] eqn:E; [|discriminate].
    injection He as <-. simpl. repeat split; try assumption.
    eapply IH; eauto.
Qed.

Lemma required_alignment_pos alignment : 0 <= alignment -> 0 < required_alignment alignment.
Proof.
  unfold required_alignment, alignof_max_align_t. intros H.
  destruct (Z.eqb_spec alignment 0); lia.
Qed.

Lemma normalized_bytes_pos bytes : 0 <= bytes -> 0 < normalized_bytes bytes.
Proof. unfold normalized_bytes. intros H. destruct (Z.eqb_spec bytes 0); lia. Qed.

(** A request that fits the word is placed by first fit. *)
Lemma do_allocate_first_fit bytes alignment this :
  index_ok this -> fits_word this bytes -> 0 <= alignment ->
  required_alignment alignment <= buffer_alignment_ this ->
  do_allocate bytes alignment this =
  match first_fit (blocks_ this) 0 (normalized_bytes bytes)
                  (required_alignment alignment) (capacity_ this) with
  | Some off => commit_block off (normalized_bytes bytes) this
  | None => (Throws OutOfMemory, this)
  end.
Proof.
  intros Hok [Hb Hw] Ha Hle. rewrite do_allocate_placement.
  destruct (Z.gtb_spec (required_alignment alignment) (buffer_alignment_ this)); [lia|].
  rewrite (placement_first_fit (capacity_ this)); try assumption; try lia.
  - reflexivity.
  - apply required_alignment_pos; assumption.
  - apply normalized_bytes_pos; assumption.
Qed.

Lemma do_allocate_index_ok bytes alignment this :
  index_ok this -> fits_word this bytes -> 0 <= alignment ->
  index_ok (snd (do_allocate bytes alignment this)).
Proof.
  intros Hok Hfw Ha.
  destruct (Z.gtb_spec (required_alignment alignment) (buffer_alignment_ this)) as [Hgt|Hle].
  - rewrite do_allocate_placement.
    destruct (Z.gtb_spec (required_alignment alignment) (buffer_alignment_ this)); [|lia].
    exact Hok.
  - rewrite do_allocate_first_fit by assumption.
    destruct (first_fit _ _ _ _ _) as [off|] eqn:Hff; [|exact Hok].
    unfold commit_block, index_ok. simpl.
    eapply first_fit_chain; eauto using required_alignment_pos.
    apply normalized_bytes_pos, Hfw.
Qed.

(** The four ways out of [do_deallocate]. *)
Lemma do_deallocate_cases ptr sh ah this :
  do_deallocate ptr sh ah this = (Returns tt, this) \/
  do_deallocate ptr sh ah this = (Throws ForeignPointer, this) \/
  do_deallocate ptr sh ah this = (Throws DoubleFreeOrUnmanaged, this) \/
  exists blocks',
    erase_block (blocks_ this) (ptr - buffer_ this) = Some blocks' /\
    do_deallocate ptr sh ah this = (Returns tt, with_blocks this blocks').
Proof.
  unfold do_deallocate, ret, throw.
  destruct (ptr =? 0); [auto|].
  destruct (_ || _); [auto|].
  destruct (erase_block _ _) as [blocks'|]; [|auto].
  right. right. right. exists blocks'. auto.
Qed.

Ltac deallocate_cases ptr sh ah this :=
  let E := fresh "E" in
  let blocks' := fresh "blocks'" in
  let Herase := fresh "Herase" in
  destruct (do_deallocate_cases ptr sh ah this)
    as [E|[E|[E|(blocks' & Herase & E)]]];
  rewrite E; cbn [fst snd].

Lemma do_deallocate_index_ok ptr sh ah this :
  index_ok this -> index_ok (snd (do_deallocate ptr sh ah this)).
Proof.
  intros Hok. deallocate_cases ptr sh ah this; try exact Hok.
  unfold index_ok. simpl. eapply erase_block_chain; eauto.
Qed.

(** *** What the chain gives *)

Lemma chain_ordered cap records : forall cursor (i j : nat) (a b : Block),
  chain cap cursor records -> (i < j)%nat ->
  records !! i = Some a -> records !! j = Some b ->
  0 < size a /\ offset a + size a <= offset b.
Proof.
  induction records as [|x rest IH]; intros cursor i j a b Hc Hij Hi Hj;
    [discriminate|].
  destruct Hc as (H1 & H2 & H3).
  destruct j as [|j]; [lia|]. simpl in Hj.
  destruct i as [|i]; simpl in Hi.
  - injection Hi as <-. split; [assumption|].
    apply chain_Forall in H3. rewrite Forall_forall in H3.
    apply list_elem_of_lookup_2 in Hj. apply H3 in Hj. lia.
  - apply (IH (offset x + size x) i j a b); [exact H3|lia|exact Hi|exact Hj].
Qed.

Lemma chain_sorted cap cursor records :
  chain cap cursor records -> sorted_by_offset records.
Proof.
  intros Hc i j a b Hij Hi Hj.
  destruct (chain_ordered _ _ _ _ _ _ _ Hc Hij Hi Hj). lia.
Qed.

Lemma chain_disjoint cap cursor records :
  chain cap cursor records -> ranges_disjoint records.
Proof.
  intros Hc i j a b Hij Hi Hj. unfold disjoint.
  destruct (Nat.lt_total i j) as [Hlt|[Heq|Hgt]]; [|contradiction|].
  - left. eapply chain_ordered; eauto.
  - right. eapply chain_ordered; eauto.
Qed.

Lemma chain_within_capacity cap cursor records :
  0 <= cursor -> chain cap cursor records -> within_capacity cap records.
Proof.
  intros Hcur Hc b Hb. apply chain_Forall in Hc. rewrite Forall_forall in Hc.
  apply list_elem_of_In in Hb. apply Hc in Hb. lia.
Qed.

(** *** Sortedness needs no assumption on the requests *)

Lemma sorted_by_offset_cons b rest :
  sorted_by_offset (b :: rest) <->
  Forall (fun x => offset b <= offset x) rest /\ sorted_by_offset rest.
Proof.
  split.
  - intros Hs. split.
    + apply Forall_forall. intros x Hx.
      apply list_elem_of_lookup_1 in Hx as [k Hk].
      apply (Hs 0%nat (S k) b x); [lia|reflexivity|exact Hk].
    + intros i j x y Hij Hi Hj. apply (Hs (S i) (S j) x y); [lia|exact Hi|exact Hj].
  - intros [Hall Hs] i j x y Hij Hi Hj.
    destruct j as [|j]; [lia|]. simpl in Hj.
    destruct i as [|i]; simpl in Hi.
    + injection Hi as <-. rewrite Forall_forall in Hall.
      apply Hall. eapply list_elem_of_lookup_2; eauto.
    + apply (Hs i j x y); [lia|exact Hi|exact Hj].
Qed.

Lemma sorted_by_offset_nil : sorted_by_offset [].
Proof. intros i j a b _ Hi. discriminate. Qed.

Lemma Forall_vector_insert {A} (P : A -> Prop) (k : nat) (x : A) (v : list A) :
  P x -> Forall P v -> Forall P (vector_insert k x v).
Proof.
  intros Hx Hv. unfold vector_insert.
  apply Forall_app. split; [apply Forall_take, Hv|].
  constructor; [exact Hx|apply Forall_drop, Hv].
Qed.

Lemma lower_bound_insert_sorted records (x : Block) :
  sorted_by_offset records ->
  sorted_by_offset (vector_insert (lower_bound records (offset x)) x records).
Proof.
  induction records as [|b rest IH]; intros Hs.
  - unfold vector_insert. simpl. apply sorted_by_offset_cons.
    split; [constructor|apply sorted_by_offset_nil].
  - rewrite vector_insert_lower_bound.
    apply sorted_by_offset_cons in Hs as [Hall Hs].
    destruct (Z.ltb_spec (offset b) (offset x)).
    + apply sorted_by_offset_cons. split.
      * apply Forall_vector_insert; [lia|exact Hall].
      * apply IH, Hs.
    + apply sorted_by_offset_cons. split.
      * constructor; [assumption|].
        eapply Forall_impl; [exact Hall|]. simpl. intros; lia.
      * apply sorted_by_offset_cons. split; assumption.
Qed.

Lemma erase_block_sorted records : forall off records',
  sorted_by_offset records -> erase_block records off = Some records' ->
  sorted_by_offset records'.
Proof.
  induction records as [|b rest IH]; simpl; intros off records' Hs He; [discriminate|].
  apply sorted_by_offset_cons in Hs as [Hall Hs].
  destruct (offset b =? off); [injection He as <-; exact Hs|].
  destruct (erase_block rest off) as [rest'|] eqn:E; [|discriminate].
  injection He as <-. apply sorted_by_offset_cons. split; [|eapply IH; eauto].
  clear IH Hs. revert rest' E. induction rest as [|c rest IH]; simpl; intros rest' E;
    [discriminate|].
  inversion Hall as [|? ? Hc Hrest]; subst.
  destruct (offset c =? off); [injection E as <-; exact Hrest|].
  destruct (erase_block rest off) as [r|] eqn:E'; [|discriminate].
  injection E as <-. constructor; [exact Hc|apply IH; auto].
Qed.

Lemma do_allocate_sorted bytes alignment this :
  sorted_by_offset (blocks_ this) ->
  sorted_by_offset (blocks_ (snd (do_allocate bytes alignment this))).
Proof.
  intros Hs. rewrite do_allocate_placement.
  destruct (_ >? _); [exact Hs|].
  destruct (placement _ _ _ _ _) as [off|]; [|exact Hs].
  unfold commit_block. simpl.
  apply (lower_bound_insert_sorted (blocks_ this)
           {| offset := off; size := normalized_bytes bytes |} Hs).
Qed.

Lemma do_deallocate_sorted ptr sh ah this :
  sorted_by_offset (blocks_ this) ->
  sorted_by_offset (blocks_ (snd (do_deallocate ptr sh ah this))).
Proof.
  intros Hs. deallocate_cases ptr sh ah this; try exact Hs.
  simpl. eapply erase_block_sorted; eauto.
Qed.

(** Whatever is requested, the index of a resource that started empty is
    sorted by offset. *)
Lemma run_sorted calls : forall this,
  sorted_by_offset (blocks_ this) -> sorted_by_offset (blocks_ (run calls this)).
Proof.
  induction calls as [|c calls IH]; intros this Hs; [exact Hs|].
  simpl. apply IH. destruct c; simpl.
  - apply do_allocate_sorted, Hs.
  - apply do_deallocate_sorted, Hs.
Qed.

(** *** The arena never changes *)

Lemma do_allocate_same_arena bytes alignment this :
  same_arena this (snd (do_allocate bytes alignment this)).
Proof.
  rewrite do_allocate_placement. unfold same_arena.
  destruct (_ >? _); [auto|].
  destruct (placement _ _ _ _ _); simpl; auto.
Qed.

Lemma do_deallocate_same_arena ptr sh ah this :
  same_arena this (snd (do_deallocate ptr sh ah this)).
Proof.
  unfold same_arena. deallocate_cases ptr sh ah this; simpl; auto.
Qed.

Lemma step_same_arena c this : same_arena this (step c this).
Proof.
  destruct c; [apply do_allocate_same_arena|apply do_deallocate_same_arena].
Qed.

Lemma run_same_arena calls : forall this, same_arena this (run calls this).
Proof.
  induction calls as [|c calls IH]; intros this; [unfold same_arena; auto|].
  simpl. destruct (IH (step c this)) as (H1 & H2 & H3).
  destruct (step_same_arena c this) as (G1 & G2 & G3).
  unfold same_arena. rewrite H1, H2, H3. auto.
Qed.

(** *** Histories whose requests fit the word keep the invariant *)

Lemma call_fits_word_same_arena a b c :
  same_arena a b -> call_fits_word a c -> call_fits_word b c.
Proof.
  intros (H1 & H2 & H3). destruct c; simpl; [|auto].
  unfold fits_word. rewrite H1, H2. auto.
Qed.

Lemma step_index_ok c this :
  index_ok this -> call_fits_word this c -> index_ok (step c this).
Proof.
  intros Hok Hc. destruct c; simpl in *.
  - apply do_allocate_index_ok; tauto.
  - apply do_deallocate_index_ok, Hok.
Qed.

Lemma run_index_ok calls : forall this,
  index_ok this -> Forall (call_fits_word this) calls -> index_ok (run calls this).
Proof.
  induction calls as [|c calls IH]; intros this Hok Hall; [exact Hok|].
  inversion Hall as [|? ? Hc Hrest]; subst. simpl.
  apply IH; [apply step_index_ok; assumption|].
  eapply Forall_impl; [exact Hrest|].
  intros c'. apply call_fits_word_same_arena, step_same_arena.
Qed.

(** Sorted, disjoint and within the capacity, as long as no request is
    large enough to wrap the 64-bit sums of the scan. *)
Lemma run_fits_word_invariant cap base calls :
  0 <= cap -> Forall (call_fits_word (fresh cap base)) calls ->
  let this := run calls (fresh cap base) in
  sorted_by_offset (blocks_ this) /\
  ranges_disjoint (blocks_ this) /\
  within_capacity cap (blocks_ this).
Proof.
  intros Hcap Hall this.
  assert (Hok : index_ok this).
  { apply run_index_ok; [|exact Hall]. unfold index_ok. simpl. exact Hcap. }
  assert (Hc : capacity_ this = cap) by apply (run_same_arena calls (fresh cap base)).
  unfold index_ok in Hok. rewrite Hc in Hok.
  split; [eapply chain_sorted; eauto|].
  split; [eapply chain_disjoint; eauto|].
  eapply chain_within_capacity; [|eauto]. lia.
Qed.

(** ** Where the scan can place a block *)

Lemma placement_at_cursor blocks : forall start bytes alignment cap off,
  SizeT.in_range start ->
  placement blocks start bytes alignment cap = Some off ->
  exists cursor,
    scan_cursor blocks start cursor /\ SizeT.in_range cursor /\
    off = align_offset cursor alignment.
Proof.
  induction blocks as [|b rest IH]; intros start bytes alignment cap off Hs Hp.
  - unfold placement in Hp. simpl in Hp.
    destruct (_ >? _); [discriminate|]. injection Hp as <-.
    exists start. split; [left; reflexivity|auto].
  - rewrite placement_cons in Hp.
    destruct (_ <=? _).
    + injection Hp as <-. exists start. split; [left; reflexivity|auto].
    + apply IH in Hp as (cursor & Hc & Hr & ->); [|apply add_range].
      exists cursor. split; [|auto].
      right. destruct Hc as [->|(b' & Hin & ->)].
      * exists b. split; [left; reflexivity|reflexivity].
      * exists b'. split; [right; exact Hin|reflexivity].
Qed.

Lemma do_allocate_returns bytes alignment this p this' :
  do_allocate bytes alignment this = (Returns p, this') ->
  required_alignment alignment <= buffer_alignment_ this /\
  exists off,
    placement (blocks_ this) 0 (normalized_bytes bytes)
              (required_alignment alignment) (capacity_ this) = Some off /\
    p = buffer_ this + off /\
    this' = with_blocks this
              (vector_insert (lower_bound (blocks_ this) off)
                 {| offset := off; size := normalized_bytes bytes |} (blocks_ this)).
Proof.
  rewrite do_allocate_placement.
  destruct (Z.gtb_spec (required_alignment alignment) (buffer_alignment_ this));
    [discriminate|].
  destruct (placement _ _ _ _ _) as [off|]; [|discriminate].
  unfold commit_block. intros Heq. injection Heq as <- <-.
  split; [lia|]. exists off. auto.
Qed.

Lemma do_allocate_throws bytes alignment this f this' :
  do_allocate bytes alignment this = (Throws f, this') ->
  this' = this /\
  ((f = AlignmentExceeded /\ buffer_alignment_ this < required_alignment alignment) \/
   (f = OutOfMemory /\ required_alignment alignment <= buffer_alignment_ this /\
    placement (blocks_ this) 0 (normalized_bytes bytes)
              (required_alignment alignment) (capacity_ this) = None)).
Proof.
  rewrite do_allocate_placement.
  destruct (Z.gtb_spec (required_alignment alignment) (buffer_alignment_ this)).
  - intros Heq; injection Heq as <- <-. split; [reflexivity|]. left. split; [reflexivity|lia].
  - destruct (placement _ _ _ _ _) eqn:E; [discriminate|].
    intros Heq; injection Heq as <- <-. split; [reflexivity|]. right. auto.
Qed.

(** The two failures of [allocate] reach the caller as one exception. *)
Lemma allocation_failures_same_exception :
  exception_of AlignmentExceeded = exception_of OutOfMemory.
Proof. reflexivity. Qed.

Lemma erase_block_none blocks off :
  (forall b, In b blocks -> offset b <> off) -> erase_block blocks off = None.
Proof.
  induction blocks as [|b rest IH]; simpl; intros H; [reflexivity|].
  destruct (Z.eqb_spec (offset b) off) as [E|E].
  - exfalso. apply (H b); auto.
  - rewrite IH; [reflexivity|]. intros b' Hb'. apply H. auto.
Qed.

Lemma erase_block_first before : forall b after off,
  offset b = off -> (forall b', In b' before -> offset b' <> off) ->
  erase_block (before ++ b :: after) off = Some (before ++ after).
Proof.
  induction before as [|x before IH]; simpl; intros b after off Hb Hbefore.
  - rewrite (proj2 (Z.eqb_eq _ _) Hb). reflexivity.
  - destruct (Z.eqb_spec (offset x) off) as [E|E].
    + exfalso. apply (Hbefore x); auto.
    + rewrite IH; [reflexivity|assumption|]. intros b' Hb'. apply Hbefore. auto.
Qed.

Lemma power_of_two_iff_land a :
  0 < a -> (Z.land a (a - 1) = 0 <-> exists k, 0 <= k /\ a = 2 ^ k).
Proof.
  intros Ha. split.
  - intros Hland. exists (Z.log2 a). split; [apply Z.log2_nonneg|].
    destruct (Z.log2_spec a Ha) as [Hlo Hhi].
    destruct (Z.eq_dec a (2 ^ Z.log2 a)) as [E|E]; [exact E|exfalso].
    assert (Hk : Z.log2 (a - 1) = Z.log2 a).
    { apply Z.log2_unique; [apply Z.log2_nonneg|]. lia. }
    assert (Hbit : Z.testbit (Z.land a (a - 1)) (Z.log2 a) = true).
    { rewrite Z.land_spec, Z.bit_log2 by lia.
      rewrite <- Hk. rewrite Z.bit_log2; [reflexivity|].
      pose proof (Z.pow_pos_nonneg 2 (Z.log2 a) ltac:(lia) (Z.log2_nonneg a)). lia. }
    rewrite Hland, Z.bits_0 in Hbit. discriminate.
  - intros (k & Hk & ->).
    replace (2 ^ k - 1) with (Z.ones k) by (rewrite Z.ones_equiv; lia).
    rewrite Z.land_ones by lia. apply Z.mod_same.
    pose proof (Z.pow_pos_nonneg 2 k ltac:(lia) Hk). lia.
Qed.

Lemma power_of_two_check a :
  0 < a < SizeT.modulus ->
  (Z.land a (SizeT.sub a 1) = 0 <-> is_power_of_two a).
Proof.
  intros Ha. unfold SizeT.sub. rewrite wrap_small by (unfold SizeT.in_range; lia).
  rewrite power_of_two_iff_land by lia. unfold is_power_of_two.
  split; intros (k & Hk & ->); exists k; (split; [|reflexivity]); [|lia].
  split; [lia|]. unfold SizeT.bits.
  destruct (Z.lt_ge_cases k 64) as [|Hge]; [assumption|exfalso].
  pose proof (Z.pow_le_mono_r 2 64 k ltac:(lia) Hge).
  unfold SizeT.modulus, SizeT.bits in Ha. lia.
Qed.

(** For an alignment other than 0 the constructor rejects exactly a zero
    capacity and an alignment that is not a power of two. *)
Lemma construct_rejects cap a p :
  0 < a < SizeT.modulus ->
  (exists what, construct cap a (Returns p) = Throws (InvalidConfiguration what))
  <-> (cap = 0 \/ ~ is_power_of_two a).
Proof.
  intros Ha. unfold construct.
  destruct (Z.eqb_spec cap 0) as [E|E].
  - split; [auto|]. intros _. eexists. reflexivity.
  - destruct (Z.eqb_spec (Z.land a (SizeT.sub a 1)) 0) as [L|L]; simpl.
    + apply power_of_two_check in L; [|assumption].
      split; [intros (e & He); discriminate|]. intros [?|?]; contradiction.
    + split; [|intros _; eexists; reflexivity].
      intros _. right. intros Hp. apply L, power_of_two_check; assumption.
Qed.

(** * The claims on the memory resource *)

(** ** C1: sorted index, disjoint ranges *)

(** The sorted half holds for every history ([run_sorted]) and both halves
    hold while the requests fit the word ([run_fits_word_invariant]).  A
    request near [2^64] wraps the sum [aligned_offset + bytes] of the scan
    and is recorded; the next block is then put inside the first one. *)

(** C1, on a history with one wrapping request: a 64-byte arena, then
    [allocate(16, 1)], [allocate(2^64 - 8, 1)] and [allocate(1, 1)] all
    return, the index stays sorted by offset, and the records at offsets 0
    (16 bytes) and 8 (1 byte) overlap. *)
Theorem wrapping_request_overlaps_blocks :
  let r0 := fresh 64 4096 in
  let '(a, r1) := do_allocate 16 1 r0 in
  let '(b, r2) := do_allocate huge 1 r1 in
  let '(c, r3) := do_allocate 1 1 r2 in
  a = Returns 4096 /\ b = Returns (4096 + 16) /\ c = Returns (4096 + 8) /\
  blocks_ r3 = [ {| offset := 0; size := 16 |};
                 {| offset := 8; size := 1 |};
                 {| offset := 16; size := huge |} ] /\
  sorted_by_offset (blocks_ r3) /\
  ~ ranges_disjoint (blocks_ r3).
Proof.
  assert (E1 : do_allocate 16 1 (fresh 64 4096) =
               (Returns 4096, with_blocks (fresh 64 4096)
                                [ {| offset := 0; size := 16 |} ]))
    by (vm_compute; reflexivity).
  cbv zeta. rewrite E1.
  assert (E2 : do_allocate huge 1
                 (with_blocks (fresh 64 4096) [ {| offset := 0; size := 16 |} ]) =
               (Returns (4096 + 16),
                with_blocks (fresh 64 4096)
                  [ {| offset := 0; size := 16 |}; {| offset := 16; size := huge |} ]))
    by (vm_compute; reflexivity).
  rewrite E2.
  assert (E3 : do_allocate 1 1
                 (with_blocks (fresh 64 4096)
                    [ {| offset := 0; size := 16 |}; {| offset := 16; size := huge |} ]) =
               (Returns (4096 + 8),
                with_blocks (fresh 64 4096)
                  [ {| offset := 0; size := 16 |}; {| offset := 8; size := 1 |};
                    {| offset := 16; size := huge |} ]))
    by (vm_compute; reflexivity).
  rewrite E3. cbn [blocks_ with_blocks].
  repeat (split; [reflexivity|]).
  split.
  - apply (run_sorted [Allocate 16 1; Allocate huge 1; Allocate 1 1] (fresh 64 4096)).
    apply sorted_by_offset_nil.
  - intros Hd.
    specialize (Hd 0%nat 1%nat {| offset := 0; size := 16 |}
                  {| offset := 8; size := 1 |} ltac:(lia) eq_refl eq_refl).
    unfold disjoint in Hd. simpl in Hd. lia.
Qed.

(** ** C2: first fit *)

(** Gaps of 10, 5 and 20 bytes: a request that fits the first gap is put
    there, one that only fits the last gap is put there. *)
Example first_fit_determinism :
  let this := with_blocks (fresh 45 4096)
                [ {| offset := 10; size := 6 |}; {| offset := 21; size := 4 |} ] in
  fst (do_allocate 8 1 this) = Returns (4096 + 0) /\
  fst (do_allocate 12 1 this) = Returns (4096 + 25) /\
  fst (do_allocate 21 1 this) = Throws OutOfMemory.
Proof. vm_compute. auto. Qed.

(** A request of 0 bytes occupies one byte. *)
Example zero_bytes_is_one_byte :
  do_allocate 0 1 (fresh 128 4096) =
    (Returns 4096, with_blocks (fresh 128 4096) [ {| offset := 0; size := 1 |} ]).
Proof. vm_compute. reflexivity. Qed.

(** C2, on a wrapping request: after [allocate(16, 1)] in a 32-byte arena
    no gap fits [2^64 - 8] bytes, and the first-fit scan of the
    specification answers so, while [do_allocate] returns offset 16. *)
Theorem wrapping_request_is_not_first_fit :
  let '(a, r1) := do_allocate 16 1 (fresh 32 4096) in
  a = Returns 4096 /\
  blocks_ r1 = [ {| offset := 0; size := 16 |} ] /\
  first_fit (blocks_ r1) 0 (normalized_bytes huge) (required_alignment 1)
            (capacity_ r1) = None /\
  do_allocate huge 1 r1 =
    (Returns (4096 + 16),
     with_blocks r1 [ {| offset := 0; size := 16 |};
                      {| offset := 16; size := huge |} ]).
Proof.
  assert (E1 : do_allocate 16 1 (fresh 32 4096) =
               (Returns 4096, with_blocks (fresh 32 4096)
                                [ {| offset := 0; size := 16 |} ]))
    by (vm_compute; reflexivity).
  rewrite E1. repeat split; vm_compute; reflexivity.
Qed.

(** ** C3: alignment *)

Lemma required_alignment_nonzero a : a <> 0 -> required_alignment a = a.
Proof. unfold required_alignment. intros H. destruct (Z.eqb_spec a 0); [contradiction|reflexivity]. Qed.

(** The cursors of a state that satisfies the index invariant lie within
    the capacity. *)
Lemma scan_cursor_index_ok this cursor :
  index_ok this -> capacity_ this < SizeT.modulus ->
  scan_cursor (blocks_ this) 0 cursor -> 0 <= cursor <= capacity_ this.
Proof.
  intros Hok Hcap [->|(b & Hin & ->)].
  - apply chain_cursor_le in Hok. lia.
  - apply chain_Forall in Hok. rewrite Forall_forall in Hok.
    apply list_elem_of_In, Hok in Hin.
    rewrite add_small by lia. lia.
Qed.

(** C3: a successful [allocate(n, a)] with [a > 0] returns an offset that
    is a multiple of [a], in every state if [a] is a power of two, and for
    any [a] in a state that satisfies the index invariant; the offset is
    [align_offset] of a cursor of the scan, that is the rounding rule
    [align_up] of the specification taken in the 64-bit word, and the rule
    never rounds down. *)
Theorem allocate_returns_aligned_offset bytes a this p this' :
  0 < a ->
  is_power_of_two a \/ (index_ok this /\ fits_word this bytes) ->
  do_allocate bytes a this = (Returns p, this') ->
  exists cursor,
    scan_cursor (blocks_ this) 0 cursor /\
    p - buffer_ this = align_offset cursor a /\
    align_offset cursor a = SizeT.wrap (align_up cursor a) /\
    cursor <= align_up cursor a /\
    (p - buffer_ this) mod a = 0.
Proof.
  intros Ha Hcase Hret.
  apply do_allocate_returns in Hret as (Hle & off & Hp & -> & _).
  rewrite required_alignment_nonzero in * by lia.
  apply placement_at_cursor in Hp as (cursor & Hc & Hr & ->);
    [|unfold SizeT.in_range; pose proof modulus_pos; lia].
  exists cursor.
  replace (buffer_ this + align_offset cursor a - buffer_ this)
    with (align_offset cursor a) by lia.
  split; [exact Hc|]. split; [reflexivity|].
  split; [apply align_offset_wrap, Hr|].
  split; [apply align_up_bounds, Ha|].
  destruct Hcase as [Hpow|[Hok [Hb Hw]]].
  - apply align_offset_multiple; assumption.
  - pose proof (normalized_bytes_pos bytes Hb) as Hn.
    pose proof (scan_cursor_index_ok this cursor Hok ltac:(lia) Hc).
    rewrite align_offset_no_wrap by lia.
    apply align_up_multiple, Ha.
Qed.

Lemma allocate_returns_aligned_offset_witness :
  let this := with_blocks (fresh 512 4096) [ {| offset := 0; size := 10 |} ] in
  let this' := with_blocks (fresh 512 4096)
                 [ {| offset := 0; size := 10 |}; {| offset := 32; size := 40 |} ] in
  0 < 32 /\
  do_allocate 40 32 this = (Returns (4096 + 32), this') /\
  exists cursor,
    scan_cursor (blocks_ this) 0 cursor /\
    4096 + 32 - buffer_ this = align_offset cursor 32 /\
    align_offset cursor 32 = SizeT.wrap (align_up cursor 32) /\
    cursor <= align_up cursor 32 /\
    (4096 + 32 - buffer_ this) mod 32 = 0.
Proof.
  intros this this'.
  assert (Ha : 0 < 32) by lia.
  assert (Hpow : is_power_of_two 32)
    by (exists 5; split; [unfold SizeT.bits; lia|reflexivity]).
  assert (Hret : do_allocate 40 32 this = (Returns (4096 + 32), this'))
    by (vm_compute; reflexivity).
  split; [exact Ha|]. split; [exact Hret|].
  exact (allocate_returns_aligned_offset 40 32 this (4096 + 32) this'
           Ha (or_introl Hpow) Hret).
Defined.

(** ** C4: the capacity bound *)

(** C4, on a history with one wrapping request: in a 32-byte arena
    [allocate(16, 1)] then [allocate(2^64 - 8, 1)] both return, and the
    second record, at offset 16, ends far beyond the capacity. *)
Theorem wrapping_request_exceeds_capacity :
  let r0 := fresh 32 4096 in
  let '(a, r1) := do_allocate 16 1 r0 in
  let '(b, r2) := do_allocate huge 1 r1 in
  a = Returns 4096 /\ b = Returns (4096 + 16) /\
  blocks_ r2 = [ {| offset := 0; size := 16 |}; {| offset := 16; size := huge |} ] /\
  capacity_ r2 = 32 /\
  ~ within_capacity (capacity_ r2) (blocks_ r2).
Proof.
  assert (E1 : do_allocate 16 1 (fresh 32 4096) =
               (Returns 4096, with_blocks (fresh 32 4096)
                                [ {| offset := 0; size := 16 |} ]))
    by (vm_compute; reflexivity).
  cbv zeta. rewrite E1.
  assert (E2 : do_allocate huge 1
                 (with_blocks (fresh 32 4096) [ {| offset := 0; size := 16 |} ]) =
               (Returns (4096 + 16),
                with_blocks (fresh 32 4096)
                  [ {| offset := 0; size := 16 |}; {| offset := 16; size := huge |} ]))
    by (vm_compute; reflexivity).
  rewrite E2. cbn [blocks_ capacity_ with_blocks fresh].
  repeat (split; [reflexivity|]).
  intros Hw.
  destruct (Hw {| offset := 16; size := huge |}) as [_ Hle]; [right; left; reflexivity|].
  revert Hle. vm_compute. intros Hle. apply Hle. reflexivity.
Qed.

(** The offset itself can leave the arena: after a 30-byte block, a
    wrapping request with alignment 64 is recorded at offset 64 of a
    32-byte arena. *)
Example wrapping_request_outside_arena :
  let this := with_blocks (fresh 32 4096) [ {| offset := 0; size := 30 |} ] in
  blocks_ (snd (do_allocate (SizeT.max - 63) 64 this)) =
    [ {| offset := 0; size := 30 |}; {| offset := 64; size := SizeT.max - 63 |} ].
Proof. vm_compute. reflexivity. Qed.

(** ** C5: deallocate *)

(** C5 as stated fails on the null pointer: it lies outside the arena,
    and the call returns. *)
Lemma deallocate_null_is_not_foreign :
  let this := fresh 128 4096 in
  ~ in_arena this 0 /\
  do_deallocate 0 16 1 this = (Returns tt, this) /\
  fst (do_deallocate 0 16 1 this) <> Throws ForeignPointer.
Proof.
  split; [unfold in_arena; simpl; lia|].
  split; [reflexivity|]. simpl. discriminate.
Qed.

(** C5, for a pointer that is not null: outside the arena the call throws
    the foreign-pointer error; inside, with no record at that offset, it
    throws the unmanaged-block error; otherwise it erases the first record
    at that offset and nothing else.  The hints play no part. *)
Theorem do_deallocate_contract this ptr size_hint alignment_hint :
  ptr <> 0 ->
  (~ in_arena this ptr ->
   do_deallocate ptr size_hint alignment_hint this = (Throws ForeignPointer, this)) /\
  (in_arena this ptr ->
   (forall b, In b (blocks_ this) -> offset b <> ptr - buffer_ this) ->
   do_deallocate ptr size_hint alignment_hint this
     = (Throws DoubleFreeOrUnmanaged, this)) /\
  (in_arena this ptr ->
   forall before b after,
     blocks_ this = before ++ b :: after ->
     offset b = ptr - buffer_ this ->
     (forall b', In b' before -> offset b' <> ptr - buffer_ this) ->
     do_deallocate ptr size_hint alignment_hint this
       = (Returns tt, with_blocks this (before ++ after))).
Proof.
  intros Hnn. unfold do_deallocate, in_arena, ret, throw.
  destruct (Z.eqb_spec ptr 0) as [|_]; [contradiction|].
  destruct (Z.ltb_spec ptr (buffer_ this));
    destruct (Z.geb_spec ptr (buffer_ this + capacity_ this)); simpl;
    (split; [intros; (reflexivity || lia)|]);
    (split; [intros; try lia|intros; try lia]).
  - rewrite erase_block_none by assumption. reflexivity.
  - match goal with
    | Hb : blocks_ this = _ |- _ => rewrite Hb
    end.
    rewrite erase_block_first by assumption. reflexivity.
Qed.

Lemma do_deallocate_contract_witness :
  let this := with_blocks (fresh 128 4096)
                [ {| offset := 0; size := 16 |}; {| offset := 16; size := 16 |} ] in
  4096 + 16 <> 0 /\
  do_deallocate (4096 + 16) 7 3 this
    = (Returns tt, with_blocks this [ {| offset := 0; size := 16 |} ]).
Proof.
  intros this. split; [lia|].
  assert (Hnn : 4096 + 16 <> 0) by lia.
  refine (proj2 (proj2 (do_deallocate_contract this (4096 + 16) 7 3 Hnn)) _
            [ {| offset := 0; size := 16 |} ] {| offset := 16; size := 16 |} []
            eq_refl _ _).
  - unfold in_arena. simpl. lia.
  - simpl. lia.
  - simpl. intros b' [<-|[]]. simpl. lia.
Defined.

(** ** C6: construction *)

(** C6, on alignment 0: zero is not a power of two, and the check
    [(a & (a - 1)) != 0] lets it through; what the constructor then does
    is what [operator new] does, never [std::invalid_argument]. *)
Theorem construct_accepts_zero_alignment :
  ~ is_power_of_two 0 /\
  construct 64 0 (Returns 4096) =
    Returns {| capacity_ := 64; buffer_alignment_ := 0;
               buffer_ := 4096; blocks_ := [] |} /\
  construct 64 0 (Throws StorageExhausted) = Throws StorageExhausted.
Proof.
  split; [|split; reflexivity].
  intros (k & Hk & E).
  pose proof (Z.pow_pos_nonneg 2 k ltac:(lia) ltac:(lia)). lia.
Qed.

(** Once constructed, the capacity, the alignment and the buffer stay the
    same through every history of calls. *)
Lemma arena_is_immutable cap a p this calls :
  construct cap a (Returns p) = Returns this ->
  capacity_ (run calls this) = cap /\
  buffer_alignment_ (run calls this) = a /\
  buffer_ (run calls this) = p.
Proof.
  unfold construct. destruct (cap =? 0); [discriminate|].
  destruct (negb _); [discriminate|].
  intros H. injection H as <-.
  apply (run_same_arena calls).
Qed.

(** ** C7: the alignment check *)

(** C7: [allocate(bytes, a)] fails with the alignment failure exactly when
    the effective alignment of the request exceeds the alignment of the
    buffer, where the effective alignment is [a] itself when [a > 0] and
    [alignof(std::max_align_t)], which is 16, when [a = 0].  A call that
    fails so leaves the object, its index included, as it was before the
    call.  The alignment failure is the [throw] of line 54; the exception
    it carries is [std::bad_alloc]. *)
Theorem do_allocate_alignment_check bytes a this :
  0 <= a ->
  (0 < a ->
   (fst (do_allocate bytes a this) = Throws AlignmentExceeded <->
    buffer_alignment_ this < a)) /\
  (a = 0 ->
   (fst (do_allocate bytes a this) = Throws AlignmentExceeded <->
    buffer_alignment_ this < 16)) /\
  (fst (do_allocate bytes a this) = Throws AlignmentExceeded ->
   do_allocate bytes a this = (Throws AlignmentExceeded, this)) /\
  exception_of AlignmentExceeded = bad_alloc.
Proof.
  intros Ha.
  assert (Hcheck : forall e, required_alignment a = e ->
            (fst (do_allocate bytes a this) = Throws AlignmentExceeded <->
             buffer_alignment_ this < e)).
  { intros e <-. rewrite do_allocate_placement.
    destruct (Z.gtb_spec (required_alignment a) (buffer_alignment_ this)).
    - split; [intros _; lia|reflexivity].
    - split; [|lia]. destruct (placement _ _ _ _ _); simpl; discriminate. }
  split; [|split; [|split]].
  - intros Hpos. apply Hcheck, required_alignment_nonzero. lia.
  - intros ->. apply Hcheck. reflexivity.
  - intros Hthrow. destruct (do_allocate bytes a this) as [o this'] eqn:E.
    simpl in Hthrow. subst o. f_equal.
    apply do_allocate_throws in E. apply E.
  - reflexivity.
Qed.

Lemma do_allocate_alignment_check_witness :
  let this := fresh 1024 4096 in
  0 <= 128 /\
  (0 < 128 ->
   (fst (do_allocate 8 128 this) = Throws AlignmentExceeded <->
    buffer_alignment_ this < 128)) /\
  (128 = 0 ->
   (fst (do_allocate 8 128 this) = Throws AlignmentExceeded <->
    buffer_alignment_ this < 16)) /\
  (fst (do_allocate 8 128 this) = Throws AlignmentExceeded ->
   do_allocate 8 128 this = (Throws AlignmentExceeded, this)) /\
  exception_of AlignmentExceeded = bad_alloc.
Proof.
  intros this.
  assert (Ha : 0 <= 128) by lia.
  split; [exact Ha|].
  exact (do_allocate_alignment_check 8 128 this Ha).
Defined.

(** The check on the buffer of [fresh], whose alignment is 64, and on a
    buffer of alignment 8: an alignment above that of the buffer is
    refused whatever the size, one up to it is not, and alignment 0 is
    checked as 16. *)
Example alignment_128_on_64_refused :
  do_allocate 8 128 (fresh 1024 4096) = (Throws AlignmentExceeded, fresh 1024 4096).
Proof. reflexivity. Qed.

Example alignment_64_on_64_served :
  fst (do_allocate 8 64 (fresh 1024 4096)) = Returns 4096.
Proof. reflexivity. Qed.

Example alignment_8_on_8_served :
  fst (do_allocate 8 8
         {| capacity_ := 1024; buffer_alignment_ := 8; buffer_ := 4096; blocks_ := [] |})
  = Returns 4096.
Proof. reflexivity. Qed.

Example alignment_0_on_8_refused :
  fst (do_allocate 8 0
         {| capacity_ := 1024; buffer_alignment_ := 8; buffer_ := 4096; blocks_ := [] |})
  = Throws AlignmentExceeded.
Proof. reflexivity. Qed.

Example alignment_0_on_16_served :
  fst (do_allocate 8 0
         {| capacity_ := 1024; buffer_alignment_ := 16; buffer_ := 4096; blocks_ := [] |})
  = Returns 4096.
Proof. reflexivity. Qed.

(** ** C8: a failing call changes nothing *)

(** C8: a call of [allocate] or [deallocate] that throws leaves the object
    as it was, so the calls after it run as if it had not been made. *)
Theorem failing_call_leaves_index c this :
  call_throws c this ->
  step c this = this /\ forall calls, run (c :: calls) this = run calls this.
Proof.
  intros Hthrow.
  assert (Hstep : step c this = this).
  { destruct c as [bytes alignment|ptr sh ah]; simpl in *; destruct Hthrow as [e He].
    - destruct (do_allocate bytes alignment this) as [o this'] eqn:E.
      simpl in He. subst o. apply do_allocate_throws in E. simpl. apply E.
    - revert He. deallocate_cases ptr sh ah this; (reflexivity || discriminate). }
  split; [exact Hstep|]. intros calls. simpl. rewrite Hstep. reflexivity.
Qed.

Lemma failing_call_leaves_index_witness :
  let this := with_blocks (fresh 128 4096) [ {| offset := 16; size := 16 |} ] in
  call_throws (Deallocate 4096 16 1) this /\
  step (Deallocate 4096 16 1) this = this /\
  forall calls, run (Deallocate 4096 16 1 :: calls) this = run calls this.
Proof.
  cbv zeta.
  assert (H : call_throws (Deallocate 4096 16 1)
                (with_blocks (fresh 128 4096) [ {| offset := 16; size := 16 |} ]))
    by (eexists; vm_compute; reflexivity).
  split; [exact H|].
  exact (failing_call_leaves_index _ _ H).
Defined.

(** ** C10: the null pointer *)

(** C10: [deallocate] of the null pointer returns and changes nothing,
    whatever the hints and the state; the null pointer is outside the arena
    of any buffer that is not at address 0. *)
Theorem do_deallocate_null this size_hint alignment_hint :
  do_deallocate 0 size_hint alignment_hint this = (Returns tt, this) /\
  (0 < buffer_ this -> ~ in_arena this 0).
Proof.
  split; [reflexivity|]. unfold in_arena. lia.
Qed.

(** * Properties of the queue *)

(** The tests build [PmrQueue<int>] on a [CustomBlockMemoryResource]; a
    node of it has 16 bytes at alignment 8. *)

(** [PmrQueueTest.PreservesFifoOrder] *)
Example test_PreservesFifoOrder :
  let q := snd (push_all 16 8 [1; 2; 3] (new_queue (fresh 512 4096))) in
  fst (drain 16 8 3 q) = Returns [1; 2; 3] /\
  empty (snd (drain 16 8 3 q)) = true.
Proof. vm_compute. auto. Qed.

(** [PmrQueueTest.IteratesOverElements] *)
Example test_IteratesOverElements :
  let q := snd (push_all 16 8 [5; 6; 7] (new_queue (fresh 512 4096))) in
  collect 3 q (begin q) = Some (Returns [5; 6; 7]).
Proof. vm_compute. reflexivity. Qed.

(** [PmrQueueTest.PopOnEmptyThrows], [PmrQueueTest.FrontOnEmptyThrows] *)
Example test_EmptyThrows :
  let q := new_queue (T := Z) (fresh 64 4096) in
  fst (pop 16 8 q) = Throws EmptyContainer /\
  fst (front q) = Throws EmptyContainer /\
  exception_of EmptyContainer = out_of_range "Queue is empty".
Proof. vm_compute. auto. Qed.

(** [PmrQueueTest.ReusesFreedMemory]: twenty rounds of push and pop in a
    128-byte arena, every node at the same address. *)
Example test_ReusesFreedMemory :
  let round (q : PmrQueue Z CustomBlockMemoryResource) (v : Z) :=
    snd (pop 16 8 (snd (push 16 8 v q))) in
  let q := fold_left round (map Z.of_nat (seq 0 20)) (new_queue (fresh 128 4096)) in
  empty q = true /\
  fst (front (snd (push 16 8 42 q))) = Returns 42.
Proof. vm_compute. auto. Qed.

Section Linked.
Context {T : Type}.
Implicit Types (mem : gmap Z (Node T)) (cells : list (Z * T)).

Lemma linked_insert_fresh mem a n cells : forall p,
  a ∉ cells.*1 -> linked mem p cells -> linked (<[a := n]> mem) p cells.
Proof.
  induction cells as [|[b v] rest IH]; simpl; intros p Ha Hl; [exact Hl|].
  destruct Hl as (-> & Hb & nxt & Hm & Hrest).
  apply not_elem_of_cons in Ha as [Hab Ha].
  split; [reflexivity|]. split; [exact Hb|].
  exists nxt. split; [|apply IH; assumption].
  rewrite lookup_insert_ne by congruence. exact Hm.
Qed.

Lemma linked_delete mem a cells : forall p,
  a ∉ cells.*1 -> linked mem p cells -> linked (delete a mem) p cells.
Proof.
  induction cells as [|[b v] rest IH]; simpl; intros p Ha Hl; [exact Hl|].
  destruct Hl as (-> & Hb & nxt & Hm & Hrest).
  apply not_elem_of_cons in Ha as [Hab Ha].
  split; [reflexivity|]. split; [exact Hb|].
  exists nxt. split; [|apply IH; assumption].
  rewrite lookup_delete_ne by congruence. exact Hm.
Qed.

Lemma linked_alter_other mem a f cells : forall p,
  a ∉ cells.*1 -> linked mem p cells -> linked (alter f a mem) p cells.
Proof.
  induction cells as [|[b v] rest IH]; simpl; intros p Ha Hl; [exact Hl|].
  destruct Hl as (-> & Hb & nxt & Hm & Hrest).
  apply not_elem_of_cons in Ha as [Hab Ha].
  split; [reflexivity|]. split; [exact Hb|].
  exists nxt. split; [|apply IH; assumption].
  rewrite lookup_alter_ne by congruence. exact Hm.
Qed.

(** Linking a new last node: the [else] branch of [emplace]. *)
Lemma linked_append mem cells new_node (v : T) : forall p,
  cells <> [] -> NoDup (cells.*1) ->
  new_node <> 0 -> new_node ∉ cells.*1 ->
  mem !! new_node = Some {| value := v; next := 0 |} ->
  linked mem p cells ->
  linked (alter (set_next new_node) (List.last (cells.*1) 0) mem) p
         (cells ++ [(new_node, v)]).
Proof.
  induction cells as [|[a w] rest IH]; intros p Hne Hnd Hnn Hfresh Hnew Hl;
    [contradiction|].
  simpl in Hl. destruct Hl as (-> & Ha & nxt & Hm & Hrest).
  apply not_elem_of_cons in Hfresh as [Hna Hfresh].
  apply NoDup_cons in Hnd as [Hanot Hnd].
  cbn [fst] in Hna, Hanot.
  destruct rest as [|[b u] rest'].
  - simpl in Hrest. subst nxt.
    change (List.last ([(a, w)].*1) 0) with a. simpl.
    split; [reflexivity|]. split; [exact Ha|].
    exists new_node. split.
    + rewrite lookup_alter_eq, Hm. reflexivity.
    + split; [reflexivity|]. split; [exact Hnn|].
      exists 0. split; [|reflexivity].
      rewrite lookup_alter_ne by congruence. exact Hnew.
  - change (List.last (((a, w) :: (b, u) :: rest').*1) 0)
      with (List.last (((b, u) :: rest').*1) 0).
    assert (Hlast : List.last (((b, u) :: rest').*1) 0 ∈ ((b, u) :: rest').*1).
    { clear. generalize (b, u). induction rest' as [|c r IHr]; intros x.
      - simpl. left.
      - change (List.last ((x :: c :: r).*1) 0) with (List.last ((c :: r).*1) 0).
        rewrite fmap_cons. right. apply IHr. }
    simpl. split; [reflexivity|]. split; [exact Ha|].
    exists nxt. split.
    + rewrite lookup_alter_ne; [exact Hm|].
      intros E. apply Hanot. rewrite <- E. exact Hlast.
    + apply IH; try assumption. discriminate.
Qed.
End Linked.

Section LinkedFacts.
Context {T : Type}.
Implicit Types (mem : gmap Z (Node T)) (cells : list (Z * T)).

Lemma linked_nonzero mem cells : forall p a,
  linked mem p cells -> a ∈ cells.*1 -> a <> 0.
Proof.
  induction cells as [|[b v] rest IH]; simpl; intros p a Hl Ha.
  - apply elem_of_nil in Ha. contradiction.
  - destruct Hl as (-> & Hb & nxt & Hm & Hrest).
    apply elem_of_cons in Ha as [->|Ha]; [exact Hb|eauto].
Qed.

Lemma linked_lookup mem cells : forall p a,
  linked mem p cells -> a ∈ cells.*1 -> is_Some (mem !! a).
Proof.
  induction cells as [|[b v] rest IH]; simpl; intros p a Hl Ha.
  - apply elem_of_nil in Ha. contradiction.
  - destruct Hl as (-> & Hb & nxt & Hm & Hrest).
    apply elem_of_cons in Ha as [->|Ha]; [eauto|eauto].
Qed.

Lemma last_elem_of (l : list Z) (x : Z) : List.last (x :: l) 0 ∈ x :: l.
Proof.
  revert x. induction l as [|y l IH]; intros x; [left|].
  change (List.last (x :: y :: l) 0) with (List.last (y :: l) 0).
  right. apply IH.
Qed.
End LinkedFacts.

Lemma size_increment n : SizeT.add (SizeT.wrap n) 1 = SizeT.wrap (n + 1).
Proof. unfold SizeT.add, SizeT.wrap. apply Zplus_mod_idemp_l. Qed.

Lemma size_decrement n : SizeT.sub (SizeT.wrap (n + 1)) 1 = SizeT.wrap n.
Proof.
  unfold SizeT.sub, SizeT.wrap. rewrite Zminus_mod_idemp_l. f_equal. lia.
Qed.

Section QueueProperties.
Context {T R : Type} `{memory_resource R}.
Variables (sizeof_Node alignof_Node : Z) (valid : R -> gset Z -> Prop).
Context `{!lawful_resource sizeof_Node alignof_Node valid}.
Implicit Types (q : PmrQueue T R) (cells : list (Z * T)).

Lemma new_queue_represents (resource : R) :
  valid resource ∅ -> represents valid (new_queue (T := T) resource) [].
Proof.
  intros Hv. unfold represents. simpl.
  repeat split; [constructor|exact Hv].
Qed.

Lemma represents_empty q cells :
  represents valid q cells -> empty q = true <-> cells = [].
Proof.
  intros (Hl & _). unfold empty. destruct cells as [|[a v] rest]; simpl in Hl.
  - rewrite Hl. split; reflexivity.
  - destruct Hl as (-> & Ha & _). split; [|discriminate].
    intros E. apply Z.eqb_eq in E. contradiction.
Qed.

(** [emplace] appends a cell, at an address the resource chose. *)
Lemma emplace_represents q cells (v : T) q' :
  represents valid q cells ->
  emplace sizeof_Node alignof_Node v q = (Returns tt, q') ->
  exists new_node, represents valid q' (cells ++ [(new_node, v)]).
Proof.
  intros (Hl & Hnd & Htail & Hsize & Hv). unfold emplace.
  destruct (allocate sizeof_Node alignof_Node (allocator_ q))
    as [[new_node|f|] resource] eqn:Ea; [|discriminate|discriminate].
  destruct (allocate_fresh _ _ _ _ Hv Ea) as (Hnn & Hfresh & Hv').
  rewrite elem_of_list_to_set in Hfresh.
  assert (Hset : list_to_set ((cells ++ [(new_node, v)]).*1)
                 = ({[new_node]} ∪ list_to_set (cells.*1) : gset Z)).
  { rewrite fmap_app, list_to_set_app_L. simpl.
    rewrite (right_id_L ∅ (∪)). apply (comm_L (∪)). }
  assert (Hnd' : NoDup ((cells ++ [(new_node, v)]).*1)).
  { rewrite fmap_app. apply NoDup_app. split; [exact Hnd|].
    split; [|apply NoDup_singleton].
    intros x Hx Hx'. apply list_elem_of_singleton in Hx'. subst x. contradiction. }
  assert (Hlast : List.last ((cells ++ [(new_node, v)]).*1) 0 = new_node).
  { rewrite fmap_app. apply last_last. }
  assert (Hlen : SizeT.add (size_ q) 1
                 = SizeT.wrap (Z.of_nat (length (cells ++ [(new_node, v)])))).
  { rewrite Hsize, size_increment, length_app. simpl. f_equal. lia. }
  intros Hq. exists new_node. destruct cells as [|[a w] rest].
  - simpl in Htail. rewrite Htail in Hq. simpl in Hq.
    injection Hq as <-. unfold represents. simpl.
    split; [|split; [exact Hnd'|split; [reflexivity|split; [exact Hlen|]]]].
    + split; [reflexivity|]. split; [exact Hnn|].
      exists 0. split; [apply lookup_insert_eq|reflexivity].
    + rewrite <- Hset in Hv'. exact Hv'.
  - assert (Hin : tail_ q ∈ ((a, w) :: rest).*1).
    { rewrite Htail. rewrite fmap_cons. apply last_elem_of. }
    pose proof (linked_nonzero _ _ _ _ Hl Hin) as Htnz.
    destruct (Z.eqb_spec (tail_ q) 0) as [|_]; [contradiction|].
    destruct (linked_lookup _ _ _ _ Hl Hin) as [n Hn].
    assert (Hne : tail_ q <> new_node) by (intros E; apply Hfresh; rewrite <- E; exact Hin).
    rewrite lookup_insert_ne in Hq by congruence. rewrite Hn in Hq.
    injection Hq as <-. unfold represents.
    cbn [nodes head_ tail_ size_ allocator_].
    split; [|split; [exact Hnd'|split; [symmetry; exact Hlast|split; [exact Hlen|]]]].
    + rewrite Htail. apply linked_append; try assumption.
      * discriminate.
      * apply lookup_insert_eq.
      * apply linked_insert_fresh; assumption.
    + rewrite <- Hset in Hv'. exact Hv'.
Qed.

(** An [emplace] that throws leaves the cells as they were. *)
Lemma emplace_throws_represents q cells (v : T) f q' :
  represents valid q cells ->
  emplace sizeof_Node alignof_Node v q = (Throws f, q') ->
  represents valid q' cells.
Proof.
  intros (Hl & Hnd & Htail & Hsize & Hv). unfold emplace.
  destruct (allocate sizeof_Node alignof_Node (allocator_ q))
    as [[new_node|f'|] resource] eqn:Ea.
  - destruct (tail_ q =? 0); [discriminate|].
    destruct (_ !! _); discriminate.
  - intros Hq. injection Hq as <- <-. unfold represents. simpl.
    repeat split; try assumption. eapply allocate_failed; eauto.
  - discriminate.
Qed.

(** [front] returns the value of the first cell and changes nothing. *)
Lemma front_represents q a (v : T) rest :
  represents valid q ((a, v) :: rest) -> front q = (Returns v, q).
Proof.
  intros (Hl & _). simpl in Hl. destruct Hl as (Hh & Ha & nxt & Hm & _).
  unfold front, empty. rewrite Hh.
  destruct (Z.eqb_spec a 0) as [|_]; [contradiction|].
  rewrite Hm. reflexivity.
Qed.

(** [pop] returns and removes the first cell. *)
Lemma pop_represents q a (v : T) rest :
  represents valid q ((a, v) :: rest) ->
  exists q', pop sizeof_Node alignof_Node q = (Returns tt, q') /\
             represents valid q' rest.
Proof.
  intros (Hl & Hnd & Htail & Hsize & Hv).
  simpl in Hl. destruct Hl as (Hh & Ha & nxt & Hm & Hrest).
  rewrite fmap_cons in Hnd. apply NoDup_cons in Hnd as [Hafresh Hnd].
  cbn [fst] in Hafresh.
  destruct (deallocate_live (allocator_ q) _ a Hv) as (resource & Hd & Hv').
  { rewrite fmap_cons. apply elem_of_list_to_set. left. }
  unfold pop, empty. rewrite Hh.
  destruct (Z.eqb_spec a 0) as [|_]; [contradiction|].
  rewrite Hm. cbn [next]. rewrite Hd.
  eexists. split; [reflexivity|]. unfold represents. simpl.
  split; [apply linked_delete; assumption|].
  split; [exact Hnd|].
  split; [|split].
  - destruct rest as [|[b u] rest'].
    + simpl in Hrest. subst nxt. reflexivity.
    + simpl in Hrest. destruct Hrest as (-> & Hb & _).
      destruct (Z.eqb_spec b 0) as [|_]; [contradiction|].
      rewrite Htail. reflexivity.
  - rewrite Hsize. simpl length. rewrite Nat2Z.inj_succ.
    unfold Z.succ. apply size_decrement.
  - replace (list_to_set (rest.*1) : gset Z)
      with (list_to_set (((a, v) :: rest).*1) ∖ {[a]} : gset Z); [exact Hv'|].
    rewrite fmap_cons. cbn [fst list_to_set foldr].
    apply set_eq. intros x.
    rewrite elem_of_difference, elem_of_union, elem_of_singleton,
      elem_of_list_to_set.
    split; [intros [[->|Hx] Hne]; [contradiction|exact Hx]|].
    intros Hx. split; [right; exact Hx|]. intros ->. contradiction.
Qed.

Lemma pop_front_empty q :
  represents valid q [] ->
  pop sizeof_Node alignof_Node q = (Throws EmptyContainer, q) /\
  front q = (Throws EmptyContainer, q).
Proof.
  intros (Hl & _). simpl in Hl. unfold pop, front, empty, throw.
  rewrite Hl. split; reflexivity.
Qed.

(** The loop from an iterator at the first of [cells] to [end()] ends
    within [length cells] rounds and collects the values in order. *)
Lemma collect_linked q cells : forall it fuel,
  linked (nodes q) it cells -> (length cells <= fuel)%nat ->
  collect fuel q it = Some (Returns (cells.*2)).
Proof.
  induction cells as [|[a v] rest IH]; intros it fuel Hl Hfuel.
  - simpl in Hl. subst it. destruct fuel; reflexivity.
  - simpl in Hl. destruct Hl as (-> & Ha & nxt & Hm & Hrest).
    destruct fuel as [|fuel]; [simpl in Hfuel; lia|].
    simpl. unfold end_, iterator_deref, iterator_incr.
    destruct (Z.eqb_spec a 0) as [|_]; [contradiction|].
    rewrite Hm. cbn [value next].
    rewrite (IH nxt fuel Hrest) by (simpl in Hfuel; lia).
    reflexivity.
Qed.

Lemma push_all_represents (vs : list T) : forall q cells q',
  represents valid q cells ->
  push_all sizeof_Node alignof_Node vs q = (Returns tt, q') ->
  exists added, added.*2 = vs /\ represents valid q' (cells ++ added).
Proof.
  induction vs as [|v vs IH]; intros q cells q' Hr Hp.
  - simpl in Hp. injection Hp as <-. exists []. rewrite app_nil_r. auto.
  - simpl in Hp. unfold bind, push in Hp.
    destruct (emplace sizeof_Node alignof_Node v q) as [[[]|f|] q1] eqn:Ee;
      try discriminate.
    destruct (emplace_represents _ _ _ _ Hr Ee) as [new_node Hr1].
    destruct (IH _ _ _ Hr1 Hp) as (added & Hadded & Hr').
    exists ((new_node, v) :: added).
    split; [rewrite fmap_cons, Hadded; reflexivity|].
    rewrite <- app_assoc in Hr'. exact Hr'.
Qed.

Lemma drain_represents (k : nat) : forall q cells,
  represents valid q cells -> (k <= length cells)%nat ->
  exists q', drain sizeof_Node alignof_Node k q = (Returns (take k (cells.*2)), q') /\
             represents valid q' (drop k cells).
Proof.
  induction k as [|k IH]; intros q cells Hr Hk.
  - exists q. split; [reflexivity|]. rewrite drop_0. exact Hr.
  - destruct cells as [|[a v] rest]; [simpl in Hk; lia|].
    simpl in Hk. simpl drain. unfold bind.
    rewrite (front_represents _ _ _ _ Hr).
    destruct (pop_represents _ _ _ _ Hr) as (q1 & Hp & Hr1). rewrite Hp.
    destruct (IH q1 rest Hr1 ltac:(lia)) as (q' & Hd & Hr').
    rewrite Hd. exists q'. split; [reflexivity|exact Hr'].
Qed.

(** Any sequence of pushes and pops that returns leaves the queue holding
    what the same calls leave of a list. *)
Lemma queue_refines_list (calls : list (queue_call T)) : forall q cells q',
  represents valid q cells ->
  run_queue sizeof_Node alignof_Node calls q = (Returns tt, q') ->
  exists cells', cells'.*2 = list_after calls (cells.*2) /\
                 represents valid q' cells'.
Proof.
  induction calls as [|[v|] calls IH]; intros q cells q' Hr Hrun.
  - simpl in Hrun. injection Hrun as <-. exists cells. auto.
  - simpl in Hrun. unfold bind, push in Hrun.
    destruct (emplace sizeof_Node alignof_Node v q) as [[[]|f|] q1] eqn:Ee;
      try discriminate.
    destruct (emplace_represents _ _ _ _ Hr Ee) as [new_node Hr1].
    destruct (IH _ _ _ Hr1 Hrun) as (cells' & Hc & Hr').
    exists cells'. split; [|exact Hr'].
    rewrite Hc, fmap_app. reflexivity.
  - simpl in Hrun. unfold bind in Hrun.
    destruct cells as [|[a v] rest].
    + rewrite (proj1 (pop_front_empty _ Hr)) in Hrun. discriminate.
    + destruct (pop_represents _ _ _ _ Hr) as (q1 & Hp & Hr1).
      rewrite Hp in Hrun.
      destruct (IH _ _ _ Hr1 Hrun) as (cells' & Hc & Hr').
      exists cells'. split; [exact Hc|exact Hr'].
Qed.
End QueueProperties.

(** ** CustomBlockMemoryResource is lawful *)

Lemma first_fit_fresh cap records : forall cursor bytes alignment off,
  chain cap cursor records -> 0 < alignment -> 0 < bytes ->
  first_fit records cursor bytes alignment cap = Some off ->
  forall b, In b records -> offset b <> off.
Proof.
  induction records as [|b0 rest IH]; intros cursor bytes alignment off Hc Ha Hb Hff b Hin;
    [destruct Hin|].
  pose proof (chain_Forall _ _ _ Hc) as Hall. rewrite Forall_forall in Hall.
  destruct Hc as (H1 & H2 & H3). cbn [first_fit] in Hff.
  pose proof (align_up_bounds cursor alignment Ha).
  destruct (Z.leb_spec (align_up cursor alignment + bytes) (offset b0)).
  - injection Hff as <-.
    destruct Hin as [<-|Hin]; [lia|].
    apply chain_Forall in H3. rewrite Forall_forall in H3.
    apply list_elem_of_In, H3 in Hin. lia.
  - destruct Hin as [<-|Hin].
    + destruct (first_fit_chain _ _ _ _ _ _ H3 Ha Hb Hff) as [Hle _]. lia.
    + apply (IH _ _ _ _ H3 Ha Hb Hff b Hin).
Qed.

Lemma In_vector_insert {A} (k : nat) (x y : A) (v : list A) :
  In y (vector_insert k x v) <-> y = x \/ In y v.
Proof.
  unfold vector_insert. rewrite in_app_iff. simpl.
  assert (Hv : In y v <-> In y (take k v) \/ In y (drop k v))
    by (rewrite <- in_app_iff, take_drop; reflexivity).
  rewrite Hv. intuition congruence.
Qed.

Lemma erase_block_In records : forall off records' b,
  erase_block records off = Some records' ->
  In b records -> offset b <> off -> In b records'.
Proof.
  induction records as [|x rest IH]; simpl; intros off records' b He Hin Hne;
    [destruct Hin|].
  destruct (Z.eqb_spec (offset x) off) as [E|E].
  - injection He as <-. destruct Hin as [<-|Hin]; [contradiction|exact Hin].
  - destruct (erase_block rest off) as [rest'|] eqn:Er; [|discriminate].
    injection He as <-. destruct Hin as [<-|Hin]; [left; reflexivity|].
    right. eapply IH; eauto.
Qed.

Lemma erase_block_found records : forall off b,
  In b records -> offset b = off -> exists records', erase_block records off = Some records'.
Proof.
  induction records as [|x rest IH]; simpl; intros off b Hin Hb; [destruct Hin|].
  destruct (Z.eqb_spec (offset x) off) as [E|E]; [eauto|].
  destruct Hin as [<-|Hin]; [contradiction|].
  destruct (IH off b Hin Hb) as [rest' ->]. simpl. eauto.
Qed.

#[export] Instance custom_lawful (bytes alignment : Z) :
  0 <= alignment -> lawful_resource bytes alignment (custom_valid bytes).
Proof.
  intros Ha. split.
  - intros r live p r' (Hok & Hfw & Hbuf & Hlive) Hret.
    cbn [allocate CustomBlockMemoryResource_resource] in Hret.
    pose proof (do_allocate_returns _ _ _ _ _ Hret) as (Hle & _).
    rewrite (do_allocate_first_fit bytes alignment r Hok Hfw Ha Hle) in Hret.
    destruct (first_fit _ _ _ _ _) as [off|] eqn:Hff; [|discriminate].
    unfold commit_block in Hret. injection Hret as <- <-.
    pose proof (normalized_bytes_pos bytes (proj1 Hfw)) as Hn.
    pose proof (required_alignment_pos alignment Ha) as Hra.
    destruct (first_fit_chain _ _ _ _ _ _ Hok Hra Hn Hff) as [Hoff Hchain].
    split; [lia|]. split.
    + intros Hp. destruct (Hlive _ Hp) as (b & Hb & E).
      apply (first_fit_fresh _ _ _ _ _ _ Hok Hra Hn Hff b Hb). lia.
    + split; [exact Hchain|]. split; [exact Hfw|]. split; [exact Hbuf|].
      cbn [blocks_ buffer_ with_blocks]. intros q Hq.
      apply elem_of_union in Hq as [Hq|Hq].
      * apply elem_of_singleton in Hq. subst q.
        eexists. split; [apply In_vector_insert; left; reflexivity|reflexivity].
      * destruct (Hlive _ Hq) as (b & Hb & E).
        exists b. split; [apply In_vector_insert; right; exact Hb|exact E].
  - intros r live f r' Hvalid Hret.
    cbn [allocate CustomBlockMemoryResource_resource] in Hret.
    apply do_allocate_throws in Hret as [-> _]. exact Hvalid.
  - intros r live p (Hok & Hfw & Hbuf & Hlive) Hp.
    destruct (Hlive _ Hp) as (b & Hb & E).
    pose proof (chain_Forall _ _ _ Hok) as Hall. rewrite Forall_forall in Hall.
    pose proof (Hall b (proj2 (list_elem_of_In _ _) Hb)) as (Hb0 & Hb1 & Hb2).
    destruct (erase_block_found _ _ _ Hb eq_refl) as [records' Herase].
    exists (with_blocks r records').
    cbn [deallocate CustomBlockMemoryResource_resource].
    unfold do_deallocate, ret, throw.
    destruct (Z.eqb_spec p 0); [lia|].
    destruct (Z.ltb_spec p (buffer_ r)); [lia|].
    destruct (Z.geb_spec p (buffer_ r + capacity_ r)); [lia|]. simpl.
    replace (p - buffer_ r) with (offset b) by lia. rewrite Herase.
    split; [reflexivity|].
    split; [eapply erase_block_chain; eauto|].
    split; [exact Hfw|]. split; [exact Hbuf|].
    cbn [blocks_ buffer_ with_blocks]. intros q Hq.
    apply elem_of_difference in Hq as [Hq Hne].
    rewrite elem_of_singleton in Hne.
    destruct (Hlive _ Hq) as (b' & Hb' & E').
    exists b'. split; [|exact E'].
    eapply erase_block_In; eauto. lia.
Qed.

(** * The claim on the queue *)

Section FifoOrder.
Context {T R : Type} `{memory_resource R}.
Variables (sizeof_Node alignof_Node : Z) (valid : R -> gset Z -> Prop).
Context {lawful : lawful_resource sizeof_Node alignof_Node valid}.

(** C9: push the values [vs] into a new queue on a lawful resource, all
    pushes returning.  Iteration from [begin()] to [end()] then ends and
    visits [vs] in order; [k] rounds of [front()] and [pop()] return the
    first [k] values in order, iteration after them visits the values
    still in the queue, in order, and the queue is empty exactly when
    all were popped. *)
Theorem queue_fifo_order (resource : R) (vs : list T) (k : nat)
    (pushed : PmrQueue T R) :
  valid resource ∅ ->
  push_all sizeof_Node alignof_Node vs (new_queue resource) = (Returns tt, pushed) ->
  (k <= length vs)%nat ->
  (forall fuel, (length vs <= fuel)%nat ->
     collect fuel pushed (begin pushed) = Some (Returns vs)) /\
  exists drained,
    drain sizeof_Node alignof_Node k pushed = (Returns (take k vs), drained) /\
    (forall fuel, (length vs - k <= fuel)%nat ->
       collect fuel drained (begin drained) = Some (Returns (drop k vs))) /\
    (empty drained = true <-> k = length vs).
Proof.
  intros Hvalid Hpush Hk.
  pose proof (new_queue_represents (T := T) valid resource Hvalid) as Hnew.
  destruct (push_all_represents _ _ valid vs _ _ _ Hnew Hpush)
    as (cells & Hvs & Hrep).
  simpl in Hrep.
  assert (Hlen : length cells = length vs) by (rewrite <- Hvs, length_fmap; reflexivity).
  split.
  - intros fuel Hfuel. rewrite <- Hvs.
    apply collect_linked; [apply Hrep|lia].
  - destruct (drain_represents _ _ valid k pushed cells Hrep ltac:(lia))
      as (drained & Hdrain & Hrep').
    exists drained. rewrite Hvs in Hdrain.
    split; [exact Hdrain|]. split.
    + intros fuel Hfuel. rewrite <- Hvs, <- fmap_drop.
      apply collect_linked; [apply Hrep'|].
      rewrite length_drop. lia.
    + rewrite (represents_empty valid _ _ Hrep').
      split.
      * intros E. apply (f_equal length) in E.
        rewrite length_drop in E. simpl in E. lia.
      * intros ->. rewrite <- Hlen. apply drop_all.
Qed.
End FifoOrder.

Lemma queue_fifo_order_witness :
  let resource := fresh 512 4096 in
  let pushed := snd (push_all 16 8 [1; 2; 3] (new_queue resource)) in
  custom_valid 16 resource ∅ /\
  push_all 16 8 [1; 2; 3] (new_queue resource) = (Returns tt, pushed) /\
  (forall fuel, (3 <= fuel)%nat ->
     collect fuel pushed (begin pushed) = Some (Returns [1; 2; 3])) /\
  exists drained,
    drain 16 8 1 pushed = (Returns [1], drained) /\
    (forall fuel, (2 <= fuel)%nat ->
       collect fuel drained (begin drained) = Some (Returns [2; 3])) /\
    (empty drained = true <-> 1%nat = 3%nat).
Proof.
  intros resource pushed.
  assert (Hvalid : custom_valid 16 resource ∅).
  { unfold custom_valid, index_ok, fits_word, resource. simpl.
    split; [lia|]. split; [split; [lia|vm_compute; discriminate]|].
    split; [lia|]. intros p Hp. apply elem_of_empty in Hp. destruct Hp. }
  assert (Hpush : push_all 16 8 [1; 2; 3] (new_queue resource) = (Returns tt, pushed))
    by (vm_compute; reflexivity).
  split; [exact Hvalid|]. split; [exact Hpush|].
  assert (Halign : 0 <= 8) by lia.
  exact (queue_fifo_order (lawful := custom_lawful 16 8 Halign)
           16 8 (custom_valid 16) resource [1; 2; 3] 1 pushed
           Hvalid Hpush ltac:(simpl; lia)).
Defined.

(** * Further properties of the memory resource *)

Lemma construct_returns cap a p r0 :
  construct cap a (Returns p) = Returns r0 ->
  cap <> 0 /\
  r0 = {| capacity_ := cap; buffer_alignment_ := a; buffer_ := p; blocks_ := [] |}.
Proof.
  unfold construct. destruct (Z.eqb_spec cap 0); [discriminate|].
  destruct (negb _); [discriminate|].
  intros Heq. injection Heq as <-. auto.
Qed.

(** ** The constructor *)

(** X1: for an alignment between 1 and [2^64 - 1] the constructor throws
    [std::invalid_argument] with the capacity message when the capacity is
    0 (whatever the alignment), with the alignment message when the
    capacity is not 0 and the alignment is not a power of two, and
    otherwise returns a resource with the given capacity and alignment,
    the buffer [operator new] returned, and an empty index. *)
Theorem construct_outcomes cap a p :
  0 < a < SizeT.modulus ->
  (cap = 0 ->
   construct cap a (Returns p) =
     Throws (InvalidConfiguration "Capacity must be greater than zero")) /\
  (cap <> 0 -> ~ is_power_of_two a ->
   construct cap a (Returns p) =
     Throws (InvalidConfiguration "Alignment must be a power of two")) /\
  (cap <> 0 -> is_power_of_two a ->
   construct cap a (Returns p) =
     Returns {| capacity_ := cap; buffer_alignment_ := a;
                buffer_ := p; blocks_ := [] |}).
Proof.
  intros Ha. unfold construct.
  destruct (Z.eqb_spec cap 0) as [E|E].
  - split; [reflexivity|]. split; intros; contradiction.
  - split; [intros; contradiction|].
    destruct (Z.eqb_spec (Z.land a (SizeT.sub a 1)) 0) as [L|L]; simpl.
    + apply power_of_two_check in L; [|assumption].
      split; [intros _ Hn; contradiction|reflexivity].
    + split; [reflexivity|].
      intros _ Hp. exfalso. apply L, power_of_two_check; assumption.
Qed.

Lemma construct_outcomes_witness :
  0 < 48 < SizeT.modulus /\
  construct 128 48 (Returns 4096) =
    Throws (InvalidConfiguration "Alignment must be a power of two").
Proof.
  assert (Ha : 0 < 48 < SizeT.modulus) by (split; [lia|reflexivity]).
  split; [exact Ha|].
  refine (proj1 (proj2 (construct_outcomes 128 48 4096 Ha)) _ _); [lia|].
  intros (k & Hk & E). unfold SizeT.bits in Hk.
  assert (Hcases : k < 5 \/ k = 5 \/ 6 <= k) by lia.
  destruct Hcases as [Hlt|[->|Hge]].
  - pose proof (Z.pow_le_mono_r 2 k 4 ltac:(lia) ltac:(lia)) as Hle.
    change (2 ^ 4) with 16 in Hle. lia.
  - change (2 ^ 5) with 32 in E. lia.
  - pose proof (Z.pow_le_mono_r 2 6 k ltac:(lia) Hge) as Hle.
    change (2 ^ 6) with 64 in Hle. lia.
Defined.

(** X2: the capacity [capacity()] reports, the alignment and the buffer
    of a constructed resource are those given to the constructor, after
    any calls of [allocate] and [deallocate]. *)
Theorem capacity_is_constant cap a p r0 calls :
  construct cap a (Returns p) = Returns r0 ->
  capacity (run calls r0) = cap /\
  buffer_alignment_ (run calls r0) = a /\
  buffer_ (run calls r0) = p.
Proof.
  intros Hc. apply construct_returns in Hc as [_ ->].
  apply (run_same_arena calls).
Qed.

Lemma capacity_is_constant_witness :
  let calls := [Allocate 16 1; Allocate huge 1; Deallocate 4096 0 0; Allocate 0 0] in
  construct 128 64 (Returns 4096) = Returns (fresh 128 4096) /\
  capacity (run calls (fresh 128 4096)) = 128 /\
  buffer_alignment_ (run calls (fresh 128 4096)) = 64 /\
  buffer_ (run calls (fresh 128 4096)) = 4096.
Proof.
  intros calls. split; [reflexivity|].
  exact (capacity_is_constant 128 64 4096 (fresh 128 4096) calls eq_refl).
Defined.

(** ** The index *)

(** X3: whatever is requested and released, wrapping requests included,
    the index of a constructed resource is sorted by offset. *)
Theorem index_sorted_after_any_calls cap a p r0 calls :
  construct cap a (Returns p) = Returns r0 ->
  sorted_by_offset (blocks_ (run calls r0)).
Proof.
  intros Hc. apply construct_returns in Hc as [_ ->].
  apply run_sorted. simpl. apply sorted_by_offset_nil.
Qed.

Lemma index_sorted_after_any_calls_witness :
  let calls := [Allocate 16 1; Allocate huge 1; Allocate 1 1; Deallocate 4096 0 0] in
  construct 64 64 (Returns 4096) = Returns (fresh 64 4096) /\
  sorted_by_offset (blocks_ (run calls (fresh 64 4096))).
Proof.
  intros calls. split; [reflexivity|].
  exact (index_sorted_after_any_calls 64 64 4096 (fresh 64 4096) calls eq_refl).
Defined.

Lemma chain_total_size cap records : forall cursor,
  chain cap cursor records -> cursor + total_size records <= cap.
Proof.
  induction records as [|b rest IH]; simpl; intros cursor Hc; [lia|].
  destruct Hc as (H1 & H2 & H3). apply IH in H3. lia.
Qed.

(** X4: while no request is large enough to wrap the 64-bit sums of the
    scan, the records of a constructed resource have positive sizes, lie
    within the capacity, are pairwise disjoint, and their sizes add up to
    at most the capacity. *)
Theorem fitting_calls_keep_blocks_apart cap a p r0 calls :
  construct cap a (Returns p) = Returns r0 ->
  0 <= cap ->
  Forall (call_fits_word r0) calls ->
  ranges_disjoint (blocks_ (run calls r0)) /\
  within_capacity cap (blocks_ (run calls r0)) /\
  Forall (fun b => 0 < size b) (blocks_ (run calls r0)) /\
  total_size (blocks_ (run calls r0)) <= cap.
Proof.
  intros Hc Hcap Hall. apply construct_returns in Hc as [_ ->].
  set (r0 := {| capacity_ := cap; buffer_alignment_ := a;
                buffer_ := p; blocks_ := [] |}) in *.
  assert (Hok : index_ok (run calls r0)).
  { apply run_index_ok; [|exact Hall]. unfold index_ok. simpl. exact Hcap. }
  assert (Hsame : capacity_ (run calls r0) = cap) by apply (run_same_arena calls r0).
  unfold index_ok in Hok. rewrite Hsame in Hok.
  split; [eapply chain_disjoint; eauto|].
  split; [eapply chain_within_capacity; [|eauto]; lia|].
  split.
  - eapply Forall_impl; [apply (chain_Forall _ _ _ Hok)|]. simpl. intros; lia.
  - apply chain_total_size in Hok. lia.
Qed.

Lemma fitting_calls_keep_blocks_apart_witness :
  let calls := [Allocate 16 1; Allocate 16 1; Deallocate 4096 16 1; Allocate 8 0] in
  let this := run calls (fresh 128 4096) in
  construct 128 64 (Returns 4096) = Returns (fresh 128 4096) /\
  0 <= 128 /\
  Forall (call_fits_word (fresh 128 4096)) calls /\
  ranges_disjoint (blocks_ this) /\
  within_capacity 128 (blocks_ this) /\
  Forall (fun b => 0 < size b) (blocks_ this) /\
  total_size (blocks_ this) <= 128.
Proof.
  intros calls this.
  assert (Hcap : 0 <= 128) by lia.
  assert (Hall : Forall (call_fits_word (fresh 128 4096)) calls).
  { unfold calls, call_fits_word, fits_word.
    repeat constructor; try lia; vm_compute; discriminate. }
  split; [reflexivity|]. split; [exact Hcap|]. split; [exact Hall|].
  exact (fitting_calls_keep_blocks_apart 128 64 4096 (fresh 128 4096) calls
           eq_refl Hcap Hall).
Defined.

(** ** Placement *)

Lemma align_up_least x a o :
  0 < a -> x <= o -> o mod a = 0 -> align_up x a <= o.
Proof.
  intros Ha Hxo Ho. unfold align_up.
  destruct (Z.eqb_spec a 0); [lia|]. simpl.
  destruct (Z.eqb_spec (x mod a) 0); [lia|].
  pose proof (Z.mod_pos_bound x a Ha) as Hr.
  pose proof (Z.div_mod x a ltac:(lia)) as Hx.
  pose proof (Z.div_mod o a ltac:(lia)) as Hod. rewrite Ho in Hod.
  assert (x / a < o / a) by nia.
  nia.
Qed.

(** What first fit returns is free. *)
Lemma first_fit_free cap records : forall cursor bytes alignment off,
  chain cap cursor records -> 0 < alignment -> 0 < bytes ->
  first_fit records cursor bytes alignment cap = Some off ->
  cursor <= off /\ off + bytes <= cap /\ off mod alignment = 0 /\
  forall b, In b records -> off + bytes <= offset b \/ offset b + size b <= off.
Proof.
  induction records as [|b0 rest IH]; intros cursor bytes alignment off Hc Ha Hb Hff.
  - simpl in Hff. pose proof (align_up_bounds cursor alignment Ha).
    destruct (Z.leb_spec (align_up cursor alignment + bytes) cap); [|discriminate].
    injection Hff as <-.
    split; [lia|]. split; [lia|]. split; [apply align_up_multiple, Ha|].
    intros b [].
  - cbn [first_fit] in Hff. destruct Hc as (H1 & H2 & H3).
    pose proof (align_up_bounds cursor alignment Ha).
    pose proof (chain_Forall _ _ _ H3) as Hall. rewrite Forall_forall in Hall.
    pose proof (chain_cursor_le _ _ _ H3).
    destruct (Z.leb_spec (align_up cursor alignment + bytes) (offset b0)).
    + injection Hff as <-.
      split; [lia|]. split; [lia|]. split; [apply align_up_multiple, Ha|].
      intros b [<-|Hin]; [lia|].
      apply list_elem_of_In, Hall in Hin. lia.
    + destruct (IH _ _ _ _ H3 Ha Hb Hff) as (Hle & Hcap & Hmod & Hfree).
      split; [lia|]. split; [lia|]. split; [exact Hmod|].
      intros b [<-|Hin]; [lia|auto].
Qed.

(** First fit finds a place at or below any free aligned place. *)
Lemma first_fit_lowest cap records : forall cursor bytes alignment o,
  chain cap cursor records -> 0 < alignment -> 0 < bytes ->
  cursor <= o -> o mod alignment = 0 -> o + bytes <= cap ->
  (forall b, In b records -> o + bytes <= offset b \/ offset b + size b <= o) ->
  exists off, first_fit records cursor bytes alignment cap = Some off /\ off <= o.
Proof.
  induction records as [|b0 rest IH]; intros cursor bytes alignment o Hc Ha Hb Hco Ho Hcap Hfree.
  - simpl. pose proof (align_up_least cursor alignment o Ha Hco Ho).
    destruct (Z.leb_spec (align_up cursor alignment + bytes) cap); [eauto|lia].
  - cbn [first_fit]. destruct Hc as (H1 & H2 & H3).
    pose proof (align_up_least cursor alignment o Ha Hco Ho).
    destruct (Z.leb_spec (align_up cursor alignment + bytes) (offset b0)); [eauto|].
    destruct (Hfree b0 (or_introl eq_refl)) as [Hbefore|Hafter]; [lia|].
    apply IH; try assumption. intros b Hin. apply Hfree. right. exact Hin.
Qed.

(** X5: in a state that satisfies the index invariant, a returning
    [allocate] whose request cannot wrap gives the lowest place that
    serves: the offset is a multiple of the required alignment, the bytes
    from it are free, and no lower multiple of the alignment has that many
    free bytes. *)
Theorem allocate_returns_lowest_fit bytes alignment this p this' :
  index_ok this -> fits_word this bytes -> 0 <= alignment ->
  do_allocate bytes alignment this = (Returns p, this') ->
  (p - buffer_ this) mod required_alignment alignment = 0 /\
  free_at this (p - buffer_ this) (normalized_bytes bytes) /\
  forall o, o mod required_alignment alignment = 0 ->
            free_at this o (normalized_bytes bytes) ->
            p - buffer_ this <= o.
Proof.
  intros Hok Hfw Ha Hret.
  pose proof (do_allocate_returns _ _ _ _ _ Hret) as (Hle & _).
  rewrite (do_allocate_first_fit bytes alignment this Hok Hfw Ha Hle) in Hret.
  destruct (first_fit _ _ _ _ _) as [off|] eqn:Hff; [|discriminate].
  unfold commit_block in Hret. injection Hret as <- <-.
  replace (buffer_ this + off - buffer_ this) with off by lia.
  pose proof (normalized_bytes_pos bytes (proj1 Hfw)) as Hn.
  pose proof (required_alignment_pos alignment Ha) as Hra.
  destruct (first_fit_free _ _ _ _ _ _ Hok Hra Hn Hff) as (H0 & Hcap & Hmod & Hfree).
  split; [exact Hmod|]. split; [unfold free_at; auto|].
  intros o Ho (Ho0 & Hocap & Hofree).
  destruct (first_fit_lowest _ _ _ _ _ o Hok Hra Hn Ho0 Ho Hocap Hofree)
    as (off' & Hff' & Hle').
  rewrite Hff in Hff'. injection Hff' as <-. exact Hle'.
Qed.

Lemma allocate_returns_lowest_fit_witness :
  let this := with_blocks (fresh 128 4096)
                [ {| offset := 0; size := 10 |}; {| offset := 40; size := 8 |} ] in
  let this' := with_blocks (fresh 128 4096)
                 [ {| offset := 0; size := 10 |}; {| offset := 16; size := 20 |};
                   {| offset := 40; size := 8 |} ] in
  index_ok this /\ fits_word this 20 /\ 0 <= 16 /\
  do_allocate 20 16 this = (Returns (4096 + 16), this') /\
  (4096 + 16 - buffer_ this) mod required_alignment 16 = 0 /\
  free_at this (4096 + 16 - buffer_ this) (normalized_bytes 20) /\
  forall o, o mod required_alignment 16 = 0 ->
            free_at this o (normalized_bytes 20) ->
            4096 + 16 - buffer_ this <= o.
Proof.
  intros this this'.
  assert (Hok : index_ok this) by (unfold index_ok, this; simpl; lia).
  assert (Hfw : fits_word this 20)
    by (unfold fits_word, this; simpl; split; [lia|vm_compute; discriminate]).
  assert (Ha : 0 <= 16) by lia.
  assert (Hret : do_allocate 20 16 this = (Returns (4096 + 16), this'))
    by (vm_compute; reflexivity).
  split; [exact Hok|]. split; [exact Hfw|]. split; [exact Ha|]. split; [exact Hret|].
  exact (allocate_returns_lowest_fit 20 16 this (4096 + 16) this' Hok Hfw Ha Hret).
Defined.

Lemma place_is_found bytes alignment this o :
  index_ok this -> fits_word this bytes -> 0 <= alignment ->
  required_alignment alignment <= buffer_alignment_ this ->
  o mod required_alignment alignment = 0 ->
  free_at this o (normalized_bytes bytes) ->
  exists p this',
    do_allocate bytes alignment this = (Returns p, this') /\
    buffer_ this <= p <= buffer_ this + o.
Proof.
  intros Hok Hfw Ha Hle Ho (Ho0 & Hocap & Hofree).
  rewrite (do_allocate_first_fit bytes alignment this Hok Hfw Ha Hle).
  pose proof (normalized_bytes_pos bytes (proj1 Hfw)) as Hn.
  pose proof (required_alignment_pos alignment Ha) as Hra.
  destruct (first_fit_lowest _ _ _ _ _ o Hok Hra Hn Ho0 Ho Hocap Hofree)
    as (off & Hff & Hle').
  rewrite Hff. unfold commit_block. do 2 eexists. split; [reflexivity|].
  destruct (first_fit_free _ _ _ _ _ _ Hok Hra Hn Hff) as (H0 & _). lia.
Qed.

(** X6: in a state that satisfies the index invariant, [allocate] with an
    alignment the buffer supports and a request that cannot wrap fails
    only when there is no place at all: if some multiple of the required
    alignment has that many free bytes, the call returns, with a pointer
    at or below that place. *)
Theorem allocate_returns_when_a_place_is_free bytes alignment this o :
  index_ok this -> fits_word this bytes -> 0 <= alignment ->
  required_alignment alignment <= buffer_alignment_ this ->
  o mod required_alignment alignment = 0 ->
  free_at this o (normalized_bytes bytes) ->
  exists p this',
    do_allocate bytes alignment this = (Returns p, this') /\
    buffer_ this <= p <= buffer_ this + o.
Proof. apply place_is_found. Qed.

Lemma allocate_returns_when_a_place_is_free_witness :
  let this := with_blocks (fresh 128 4096)
                [ {| offset := 0; size := 10 |}; {| offset := 40; size := 8 |} ] in
  index_ok this /\ fits_word this 20 /\ 0 <= 16 /\
  required_alignment 16 <= buffer_alignment_ this /\
  64 mod required_alignment 16 = 0 /\
  free_at this 64 (normalized_bytes 20) /\
  exists p this',
    do_allocate 20 16 this = (Returns p, this') /\
    buffer_ this <= p <= buffer_ this + 64.
Proof.
  intros this.
  assert (Hok : index_ok this) by (unfold index_ok, this; simpl; lia).
  assert (Hfw : fits_word this 20)
    by (unfold fits_word, this; simpl; split; [lia|vm_compute; discriminate]).
  assert (Ha : 0 <= 16) by lia.
  assert (Hle : required_alignment 16 <= buffer_alignment_ this)
    by (unfold this; simpl; vm_compute; discriminate).
  assert (Ho : 64 mod required_alignment 16 = 0) by reflexivity.
  assert (Hfree : free_at this 64 (normalized_bytes 20)).
  { unfold free_at, this. simpl.
    split; [lia|]. split; [vm_compute; discriminate|].
    intros b [<-|[<-|[]]]; simpl; right; lia. }
  repeat (split; [assumption|]).
  exact (allocate_returns_when_a_place_is_free 20 16 this 64 Hok Hfw Ha Hle Ho Hfree).
Defined.

(** ** Release *)

Lemma with_blocks_restore this records :
  with_blocks (with_blocks this records) (blocks_ this) = this.
Proof. destruct this. reflexivity. Qed.

Lemma erase_block_inserted records (k : nat) off n :
  (forall b, In b records -> offset b <> off) ->
  erase_block (vector_insert k {| offset := off; size := n |} records) off
  = Some records.
Proof.
  intros Hfresh. unfold vector_insert.
  rewrite erase_block_first; [rewrite take_drop; reflexivity|reflexivity|].
  intros b Hb. apply Hfresh.
  rewrite <- (take_drop k records). apply in_or_app. left. exact Hb.
Qed.

Lemma erase_block_subset records : forall off records' b,
  erase_block records off = Some records' -> In b records' -> In b records.
Proof.
  induction records as [|x rest IH]; simpl; intros off records' b He Hin;
    [discriminate|].
  destruct (offset x =? off).
  - injection He as <-. right. exact Hin.
  - destruct (erase_block rest off) as [rest'|] eqn:Er; [|discriminate].
    injection He as <-. destruct Hin as [<-|Hin]; [left; reflexivity|].
    right. eapply IH; eauto.
Qed.

(** In a chain no record is left at the offset that was erased. *)
Lemma erase_block_chain_gone cap records : forall cursor off records',
  chain cap cursor records -> erase_block records off = Some records' ->
  forall b, In b records' -> offset b <> off.
Proof.
  induction records as [|x rest IH]; simpl; intros cursor off records' Hc He b Hin;
    [discriminate|].
  destruct Hc as (H1 & H2 & H3).
  pose proof (chain_Forall _ _ _ H3) as Hall. rewrite Forall_forall in Hall.
  destruct (Z.eqb_spec (offset x) off) as [E|E].
  - injection He as <-. apply list_elem_of_In, Hall in Hin. lia.
  - destruct (erase_block rest off) as [rest'|] eqn:Er; [|discriminate].
    injection He as <-. destruct Hin as [<-|Hin]; [exact E|].
    eapply IH; eauto.
Qed.

Lemma chain_In_apart cap records : forall cursor a b,
  chain cap cursor records -> In a records -> In b records ->
  a = b \/ offset a + size a <= offset b \/ offset b + size b <= offset a.
Proof.
  induction records as [|x rest IH]; intros cursor a b Hc Ha Hb; [destruct Ha|].
  destruct Hc as (H1 & H2 & H3).
  pose proof (chain_Forall _ _ _ H3) as Hall. rewrite Forall_forall in Hall.
  destruct Ha as [<-|Ha], Hb as [<-|Hb].
  - left. reflexivity.
  - right. left. apply list_elem_of_In, Hall in Hb. lia.
  - right. right. apply list_elem_of_In, Hall in Ha. lia.
  - eapply IH; eauto.
Qed.

(** X7: in a state that satisfies the index invariant, giving back the
    pointer a returning [allocate] has just produced puts the resource
    back exactly as it was before the allocation, whatever the hints. *)
Theorem allocate_then_deallocate_restores bytes alignment this p this' sh ah :
  index_ok this -> fits_word this bytes -> 0 <= alignment ->
  0 < buffer_ this ->
  do_allocate bytes alignment this = (Returns p, this') ->
  do_deallocate p sh ah this' = (Returns tt, this).
Proof.
  intros Hok Hfw Ha Hbuf Hret.
  pose proof (do_allocate_returns _ _ _ _ _ Hret) as (Hle & _).
  rewrite (do_allocate_first_fit bytes alignment this Hok Hfw Ha Hle) in Hret.
  destruct (first_fit _ _ _ _ _) as [off|] eqn:Hff; [|discriminate].
  unfold commit_block in Hret. injection Hret as <- <-.
  pose proof (normalized_bytes_pos bytes (proj1 Hfw)) as Hn.
  pose proof (required_alignment_pos alignment Ha) as Hra.
  destruct (first_fit_free _ _ _ _ _ _ Hok Hra Hn Hff) as (H0 & Hcap & _ & _).
  unfold do_deallocate, ret, throw. cbn [buffer_ capacity_ blocks_ with_blocks].
  destruct (Z.eqb_spec (buffer_ this + off) 0); [lia|].
  destruct (Z.ltb_spec (buffer_ this + off) (buffer_ this)); [lia|].
  destruct (Z.geb_spec (buffer_ this + off) (buffer_ this + capacity_ this)); [lia|].
  cbn [orb].
  assert (Eoff : buffer_ this + off - buffer_ this = off) by lia. rewrite Eoff.
  rewrite erase_block_inserted
    by exact (first_fit_fresh _ _ _ _ _ _ Hok Hra Hn Hff).
  rewrite with_blocks_restore. reflexivity.
Qed.

Lemma allocate_then_deallocate_restores_witness :
  let this := with_blocks (fresh 128 4096)
                [ {| offset := 0; size := 10 |}; {| offset := 40; size := 8 |} ] in
  let this' := with_blocks (fresh 128 4096)
                 [ {| offset := 0; size := 10 |}; {| offset := 16; size := 20 |};
                   {| offset := 40; size := 8 |} ] in
  index_ok this /\ fits_word this 20 /\ 0 <= 16 /\ 0 < buffer_ this /\
  do_allocate 20 16 this = (Returns (4096 + 16), this') /\
  do_deallocate (4096 + 16) 20 16 this' = (Returns tt, this).
Proof.
  intros this this'.
  assert (Hok : index_ok this) by (unfold index_ok, this; simpl; lia).
  assert (Hfw : fits_word this 20)
    by (unfold fits_word, this; simpl; split; [lia|vm_compute; discriminate]).
  assert (Ha : 0 <= 16) by lia.
  assert (Hbuf : 0 < buffer_ this) by (unfold this; simpl; lia).
  assert (Hret : do_allocate 20 16 this = (Returns (4096 + 16), this'))
    by (vm_compute; reflexivity).
  repeat (split; [assumption|]).
  exact (allocate_then_deallocate_restores 20 16 this (4096 + 16) this' 20 16
           Hok Hfw Ha Hbuf Hret).
Defined.

(** X8: in a state that satisfies the index invariant, a pointer that
    [deallocate] has taken back is refused the second time: the call
    throws the unmanaged-block [std::logic_error] and changes nothing. *)
Theorem second_deallocate_is_refused this ptr sh ah this' sh' ah' :
  index_ok this -> ptr <> 0 ->
  do_deallocate ptr sh ah this = (Returns tt, this') ->
  do_deallocate ptr sh' ah' this' = (Throws DoubleFreeOrUnmanaged, this').
Proof.
  intros Hok Hnn. unfold do_deallocate, ret, throw.
  destruct (Z.eqb_spec ptr 0); [contradiction|].
  destruct (_ || _) eqn:Hout; [discriminate|].
  destruct (erase_block (blocks_ this) (ptr - buffer_ this)) as [blocks'|] eqn:He;
    [|discriminate].
  intros Heq. injection Heq as <-. cbn [buffer_ capacity_ blocks_ with_blocks].
  rewrite Hout.
  rewrite erase_block_none; [reflexivity|].
  eapply erase_block_chain_gone; eauto.
Qed.

Lemma second_deallocate_is_refused_witness :
  let this := with_blocks (fresh 128 4096)
                [ {| offset := 0; size := 16 |}; {| offset := 16; size := 16 |} ] in
  let this' := with_blocks (fresh 128 4096) [ {| offset := 16; size := 16 |} ] in
  index_ok this /\ 4096 <> 0 /\
  do_deallocate 4096 16 1 this = (Returns tt, this') /\
  do_deallocate 4096 16 1 this' = (Throws DoubleFreeOrUnmanaged, this').
Proof.
  intros this this'.
  assert (Hok : index_ok this) by (unfold index_ok, this; simpl; lia).
  assert (Hnn : 4096 <> 0) by lia.
  assert (Hd : do_deallocate 4096 16 1 this = (Returns tt, this'))
    by (vm_compute; reflexivity).
  repeat (split; [assumption|]).
  exact (second_deallocate_is_refused this 4096 16 1 this' 16 1 Hok Hnn Hd).
Defined.

(** X9: in a state that satisfies the index invariant, a pointer into the
    middle of a live block is not taken for the block: [deallocate] throws
    the unmanaged-block [std::logic_error] and changes nothing. *)
Theorem interior_pointer_is_refused this b k sh ah :
  index_ok this -> 0 < buffer_ this ->
  In b (blocks_ this) -> 0 < k < size b ->
  do_deallocate (buffer_ this + offset b + k) sh ah this
  = (Throws DoubleFreeOrUnmanaged, this).
Proof.
  intros Hok Hbuf Hb Hk.
  pose proof (chain_Forall _ _ _ Hok) as Hall. rewrite Forall_forall in Hall.
  pose proof (Hall b (proj2 (list_elem_of_In _ _) Hb)) as (Hb0 & Hb1 & Hb2).
  unfold do_deallocate, ret, throw.
  destruct (Z.eqb_spec (buffer_ this + offset b + k) 0); [lia|].
  destruct (Z.ltb_spec (buffer_ this + offset b + k) (buffer_ this)); [lia|].
  destruct (Z.geb_spec (buffer_ this + offset b + k) (buffer_ this + capacity_ this));
    [lia|].
  cbn [orb]. rewrite erase_block_none; [reflexivity|].
  intros b' Hb' E.
  pose proof (Hall b' (proj2 (list_elem_of_In _ _) Hb')) as (_ & Hb'1 & _).
  destruct (chain_In_apart _ _ _ _ _ Hok Hb Hb') as [->|[Hlt|Hgt]]; lia.
Qed.

Lemma interior_pointer_is_refused_witness :
  let this := with_blocks (fresh 128 4096)
                [ {| offset := 0; size := 16 |}; {| offset := 16; size := 16 |} ] in
  index_ok this /\ 0 < buffer_ this /\
  In {| offset := 16; size := 16 |} (blocks_ this) /\ 0 < 4 < 16 /\
  do_deallocate (4096 + 16 + 4) 16 1 this = (Throws DoubleFreeOrUnmanaged, this).
Proof.
  intros this.
  assert (Hok : index_ok this) by (unfold index_ok, this; simpl; lia).
  assert (Hbuf : 0 < buffer_ this) by (unfold this; simpl; lia).
  assert (Hb : In {| offset := 16; size := 16 |} (blocks_ this))
    by (right; left; reflexivity).
  assert (Hk : 0 < 4 < 16) by lia.
  repeat (split; [assumption|]).
  exact (interior_pointer_is_refused this {| offset := 16; size := 16 |} 4 16 1
           Hok Hbuf Hb Hk).
Defined.

(** X10: in a state that satisfies the index invariant, the place of a
    block that [deallocate] takes back serves the next request: a request
    that cannot wrap, no larger than the block, with an alignment the
    buffer supports and that the block's offset meets, returns a pointer
    at or below the one released. *)
Theorem released_block_serves_next_request this b sh ah bytes alignment :
  index_ok this -> 0 < buffer_ this -> In b (blocks_ this) ->
  fits_word this bytes -> 0 <= alignment ->
  required_alignment alignment <= buffer_alignment_ this ->
  normalized_bytes bytes <= size b ->
  offset b mod required_alignment alignment = 0 ->
  exists this' p' this'',
    do_deallocate (buffer_ this + offset b) sh ah this = (Returns tt, this') /\
    do_allocate bytes alignment this' = (Returns p', this'') /\
    buffer_ this <= p' <= buffer_ this + offset b.
Proof.
  intros Hok Hbuf Hb Hfw Ha Hle Hsize Hmod.
  pose proof (chain_Forall _ _ _ Hok) as Hall. rewrite Forall_forall in Hall.
  pose proof (Hall b (proj2 (list_elem_of_In _ _) Hb)) as (Hb0 & Hb1 & Hb2).
  destruct (erase_block_found _ _ _ Hb eq_refl) as [records' Herase].
  set (this' := with_blocks this records').
  assert (Hd : do_deallocate (buffer_ this + offset b) sh ah this = (Returns tt, this')).
  { unfold do_deallocate, ret, throw.
    destruct (Z.eqb_spec (buffer_ this + offset b) 0); [lia|].
    destruct (Z.ltb_spec (buffer_ this + offset b) (buffer_ this)); [lia|].
    destruct (Z.geb_spec (buffer_ this + offset b) (buffer_ this + capacity_ this));
      [lia|].
    cbn [orb].
    assert (E : buffer_ this + offset b - buffer_ this = offset b) by lia.
    rewrite E, Herase. reflexivity. }
  assert (Hok' : index_ok this')
    by (unfold index_ok, this'; simpl; eapply erase_block_chain; eauto).
  assert (Hfree : free_at this' (offset b) (normalized_bytes bytes)).
  { unfold free_at, this'. cbn [capacity_ blocks_ with_blocks].
    split; [lia|]. split; [lia|]. intros b' Hb'.
    pose proof (erase_block_chain_gone _ _ _ _ _ Hok Herase b' Hb') as Hne.
    pose proof (erase_block_subset _ _ _ _ Herase Hb') as Hin.
    destruct (chain_In_apart _ _ _ _ _ Hok Hb Hin) as [->|[Hlt|Hgt]];
      [contradiction|left; lia|right; lia]. }
  destruct (place_is_found bytes alignment this' (offset b) Hok' Hfw Ha Hle Hmod Hfree)
    as (p' & this'' & Hret & Hp').
  exists this', p', this''. auto.
Qed.

Lemma released_block_serves_next_request_witness :
  let this := with_blocks (fresh 128 4096)
                [ {| offset := 0; size := 16 |}; {| offset := 16; size := 16 |} ] in
  index_ok this /\ 0 < buffer_ this /\
  In {| offset := 0; size := 16 |} (blocks_ this) /\
  fits_word this 8 /\ 0 <= 1 /\
  required_alignment 1 <= buffer_alignment_ this /\
  normalized_bytes 8 <= 16 /\ 0 mod required_alignment 1 = 0 /\
  exists this' p' this'',
    do_deallocate (buffer_ this + 0) 16 1 this = (Returns tt, this') /\
    do_allocate 8 1 this' = (Returns p', this'') /\
    buffer_ this <= p' <= buffer_ this + 0.
Proof.
  intros this.
  assert (Hok : index_ok this) by (unfold index_ok, this; simpl; lia).
  assert (Hbuf : 0 < buffer_ this) by (unfold this; simpl; lia).
  assert (Hb : In {| offset := 0; size := 16 |} (blocks_ this)) by (left; reflexivity).
  assert (Hfw : fits_word this 8)
    by (unfold fits_word, this; simpl; split; [lia|vm_compute; discriminate]).
  assert (Ha : 0 <= 1) by lia.
  assert (Hle : required_alignment 1 <= buffer_alignment_ this)
    by (unfold this; simpl; vm_compute; discriminate).
  assert (Hsize : normalized_bytes 8 <= 16) by (vm_compute; discriminate).
  assert (Hmod : 0 mod required_alignment 1 = 0) by reflexivity.
  repeat (split; [assumption|]).
  exact (released_block_serves_next_request this {| offset := 0; size := 16 |}
           16 1 8 1 Hok Hbuf Hb Hfw Ha Hle Hsize Hmod).
Defined.

Lemma total_size_app l1 l2 : total_size (l1 ++ l2) = total_size l1 + total_size l2.
Proof. induction l1 as [|b l1 IH]; simpl; [reflexivity|]. rewrite IH. lia. Qed.

Lemma total_size_vector_insert (k : nat) x records :
  total_size (vector_insert k x records) = size x + total_size records.
Proof.
  unfold vector_insert. rewrite total_size_app. simpl.
  rewrite <- (take_drop k records) at 3. rewrite total_size_app. lia.
Qed.

(** X11: in a state that satisfies the index invariant and whose records
    add up to the whole capacity, every request that cannot wrap fails
    with [std::bad_alloc] and leaves the resource as it was. *)
Theorem full_arena_refuses this bytes alignment :
  index_ok this -> total_size (blocks_ this) = capacity_ this ->
  fits_word this bytes -> 0 <= alignment ->
  exists f, do_allocate bytes alignment this = (Throws f, this) /\
            exception_of f = bad_alloc.
Proof.
  intros Hok Hfull Hfw Ha.
  pose proof (do_allocate_index_ok bytes alignment this Hok Hfw Ha) as Hok'.
  pose proof (do_allocate_same_arena bytes alignment this) as (Hcap & _).
  destruct (do_allocate bytes alignment this) as [[p|f|] this'] eqn:E.
  - exfalso. apply do_allocate_returns in E as (_ & off & _ & _ & ->).
    cbn [snd] in Hok', Hcap. unfold index_ok in Hok'.
    apply chain_total_size in Hok'. cbn [blocks_ capacity_ with_blocks] in Hok'.
    rewrite total_size_vector_insert in Hok'. cbn [size] in Hok'.
    pose proof (normalized_bytes_pos bytes (proj1 Hfw)). lia.
  - apply do_allocate_throws in E as [-> [[-> _]|[-> _]]]; eauto.
  - exfalso. rewrite do_allocate_placement in E.
    destruct (_ >? _); [discriminate|].
    destruct (placement _ _ _ _ _); discriminate.
Qed.

Lemma full_arena_refuses_witness :
  let this := with_blocks (fresh 32 4096)
                [ {| offset := 0; size := 16 |}; {| offset := 16; size := 16 |} ] in
  index_ok this /\ total_size (blocks_ this) = capacity_ this /\
  fits_word this 1 /\ 0 <= 1 /\
  exists f, do_allocate 1 1 this = (Throws f, this) /\ exception_of f = bad_alloc.
Proof.
  intros this.
  assert (Hok : index_ok this) by (unfold index_ok, this; simpl; lia).
  assert (Hfull : total_size (blocks_ this) = capacity_ this) by reflexivity.
  assert (Hfw : fits_word this 1)
    by (unfold fits_word, this; simpl; split; [lia|vm_compute; discriminate]).
  assert (Ha : 0 <= 1) by lia.
  repeat (split; [assumption|]).
  exact (full_arena_refuses this 1 1 Hok Hfull Hfw Ha).
Defined.

(** ** What a call does to the other records *)

Lemma length_vector_insert {A} (k : nat) (x : A) (v : list A) :
  length (vector_insert k x v) = S (length v).
Proof.
  unfold vector_insert. rewrite length_app. simpl.
  rewrite <- (take_drop k v) at 3. rewrite length_app. lia.
Qed.

Lemma erase_block_length records : forall off records',
  erase_block records off = Some records' -> length records = S (length records').
Proof.
  induction records as [|x rest IH]; simpl; intros off records' He; [discriminate|].
  destruct (offset x =? off); [injection He as <-; reflexivity|].
  destruct (erase_block rest off) as [rest'|] eqn:Er; [|discriminate].
  injection He as <-. simpl. f_equal. eapply IH; eauto.
Qed.

Lemma erase_block_some_found records : forall off records',
  erase_block records off = Some records' ->
  exists b, In b records /\ offset b = off.
Proof.
  induction records as [|x rest IH]; simpl; intros off records' He; [discriminate|].
  destruct (Z.eqb_spec (offset x) off) as [E|E]; [eauto|].
  destruct (erase_block rest off) as [rest'|] eqn:Er; [|discriminate].
  destruct (IH off rest' Er) as (b & Hb & Hoff). eauto.
Qed.

(** X12: in any state, a returning [allocate] adds one record to the
    index, at the offset of the pointer it returns and with the size of
    the request (1 for a request of 0 bytes), and leaves every other
    record as it was. *)
Theorem allocate_only_adds_its_record bytes alignment this p this' :
  do_allocate bytes alignment this = (Returns p, this') ->
  length (blocks_ this') = S (length (blocks_ this)) /\
  forall b, In b (blocks_ this') <->
            b = {| offset := p - buffer_ this; size := normalized_bytes bytes |} \/
            In b (blocks_ this).
Proof.
  intros Hret. apply do_allocate_returns in Hret as (_ & off & _ & -> & ->).
  cbn [blocks_ with_blocks]. split; [apply length_vector_insert|].
  intros b. rewrite In_vector_insert.
  replace (buffer_ this + off - buffer_ this) with off by lia. reflexivity.
Qed.

Lemma allocate_only_adds_its_record_witness :
  let this := with_blocks (fresh 128 4096)
                [ {| offset := 0; size := 10 |}; {| offset := 40; size := 8 |} ] in
  let this' := snd (do_allocate 0 16 this) in
  do_allocate 0 16 this = (Returns (4096 + 16), this') /\
  length (blocks_ this') = S (length (blocks_ this)) /\
  forall b, In b (blocks_ this') <->
            b = {| offset := 4096 + 16 - buffer_ this; size := normalized_bytes 0 |} \/
            In b (blocks_ this).
Proof.
  intros this this'.
  assert (Hret : do_allocate 0 16 this = (Returns (4096 + 16), this'))
    by (vm_compute; reflexivity).
  split; [exact Hret|].
  exact (allocate_only_adds_its_record 0 16 this (4096 + 16) this' Hret).
Defined.

(** X13: in any state, a returning [deallocate] of a pointer that is not
    null removes one record, at the offset of the pointer; it adds none,
    and every record at another offset stays. *)
Theorem deallocate_only_removes_its_record ptr sh ah this this' :
  ptr <> 0 ->
  do_deallocate ptr sh ah this = (Returns tt, this') ->
  length (blocks_ this) = S (length (blocks_ this')) /\
  (forall b, In b (blocks_ this') -> In b (blocks_ this)) /\
  (forall b, In b (blocks_ this) -> offset b <> ptr - buffer_ this ->
             In b (blocks_ this')) /\
  (exists b, In b (blocks_ this) /\ offset b = ptr - buffer_ this).
Proof.
  intros Hnn. unfold do_deallocate, ret, throw.
  destruct (Z.eqb_spec ptr 0); [contradiction|].
  destruct (_ || _); [discriminate|].
  destruct (erase_block (blocks_ this) (ptr - buffer_ this)) as [records'|] eqn:He;
    [|discriminate].
  intros Heq. injection Heq as <-. cbn [blocks_ with_blocks].
  split; [eapply erase_block_length; eauto|].
  split; [intros b; eapply erase_block_subset; eauto|].
  split; [intros b Hb Hne; eapply erase_block_In; eauto|].
  eapply erase_block_some_found; eauto.
Qed.

Lemma deallocate_only_removes_its_record_witness :
  let this := with_blocks (fresh 128 4096)
                [ {| offset := 0; size := 16 |}; {| offset := 16; size := 16 |} ] in
  let this' := with_blocks (fresh 128 4096) [ {| offset := 0; size := 16 |} ] in
  4096 + 16 <> 0 /\
  do_deallocate (4096 + 16) 0 0 this = (Returns tt, this') /\
  length (blocks_ this) = S (length (blocks_ this')) /\
  (forall b, In b (blocks_ this') -> In b (blocks_ this)) /\
  (forall b, In b (blocks_ this) -> offset b <> 4096 + 16 - buffer_ this ->
             In b (blocks_ this')) /\
  (exists b, In b (blocks_ this) /\ offset b = 4096 + 16 - buffer_ this).
Proof.
  intros this this'.
  assert (Hnn : 4096 + 16 <> 0) by lia.
  assert (Hd : do_deallocate (4096 + 16) 0 0 this = (Returns tt, this'))
    by (vm_compute; reflexivity).
  split; [exact Hnn|]. split; [exact Hd|].
  exact (deallocate_only_removes_its_record (4096 + 16) 0 0 this this' Hnn Hd).
Defined.

(** * Further properties of the queue *)

Section QueueHistories.
Context {T R : Type} `{memory_resource R}.
Variables (sizeof_Node alignof_Node : Z) (valid : R -> gset Z -> Prop).
Context {lawful : lawful_resource sizeof_Node alignof_Node valid}.
Implicit Types (q : PmrQueue T R) (cells : list (Z * T)).

Lemma emplace_nodes_dom (v : T) q q' :
  emplace sizeof_Node alignof_Node v q = (Returns tt, q') ->
  dom (nodes q') = {[tail_ q']} ∪ dom (nodes q).
Proof.
  unfold emplace.
  destruct (allocate sizeof_Node alignof_Node (allocator_ q))
    as [[new_node|f|] resource]; [|discriminate|discriminate].
  destruct (tail_ q =? 0).
  - intros Hq. injection Hq as <-. simpl. apply dom_insert_L.
  - destruct (_ !! _); [|discriminate].
    intros Hq. injection Hq as <-. simpl.
    rewrite dom_alter_L. apply dom_insert_L.
Qed.

Lemma pop_nodes_dom q q' :
  pop sizeof_Node alignof_Node q = (Returns tt, q') ->
  dom (nodes q') = dom (nodes q) ∖ {[head_ q]}.
Proof.
  unfold pop, throw. destruct (empty q); [discriminate|].
  destruct (nodes q !! head_ q); [|discriminate].
  destruct (deallocate _ _ _ _) as [[[]|f|] resource]; [|discriminate|discriminate].
  intros Hq. injection Hq as <-. simpl. apply dom_delete_L.
Qed.

Lemma set_without_head (a : Z) (rest : list Z) :
  a ∉ rest ->
  (list_to_set (a :: rest) : gset Z) ∖ {[a]} = list_to_set rest.
Proof.
  intros Ha. cbn [list_to_set foldr]. apply set_eq. intros x.
  rewrite elem_of_difference, elem_of_union, elem_of_singleton,
    elem_of_list_to_set.
  split; [intros [[->|Hx] Hne]; [contradiction|exact Hx]|].
  intros Hx. split; [right; exact Hx|]. intros ->. contradiction.
Qed.

Lemma emplace_owns q cells (v : T) q' :
  owns valid q cells ->
  emplace sizeof_Node alignof_Node v q = (Returns tt, q') ->
  exists new_node, owns valid q' (cells ++ [(new_node, v)]).
Proof.
  intros [Hr Hdom] He.
  destruct (emplace_represents _ _ _ _ _ _ _ Hr He) as [new_node Hr'].
  exists new_node. split; [exact Hr'|].
  rewrite (emplace_nodes_dom _ _ _ He), Hdom.
  destruct Hr' as (_ & _ & -> & _).
  assert (Hl : List.last ((cells ++ [(new_node, v)]).*1) 0 = new_node)
    by (rewrite fmap_app; apply last_last).
  rewrite Hl, fmap_app, list_to_set_app_L. simpl.
  rewrite (right_id_L ∅ (∪)). apply (comm_L (∪)).
Qed.

Lemma pop_owns q a (v : T) rest :
  owns valid q ((a, v) :: rest) ->
  exists q', pop sizeof_Node alignof_Node q = (Returns tt, q') /\ owns valid q' rest.
Proof.
  intros [Hr Hdom].
  destruct (pop_represents _ _ _ _ _ _ _ Hr) as (q' & Hp & Hr').
  exists q'. split; [exact Hp|]. split; [exact Hr'|].
  rewrite (pop_nodes_dom _ _ Hp), Hdom.
  destruct Hr as ((-> & _) & Hnd & _).
  rewrite fmap_cons in Hnd. apply NoDup_cons in Hnd as [Hfresh _].
  rewrite fmap_cons. apply set_without_head. exact Hfresh.
Qed.

Lemma new_queue_owns (resource : R) :
  valid resource ∅ -> owns valid (new_queue (T := T) resource) [].
Proof.
  intros Hv. split; [apply new_queue_represents, Hv|].
  simpl. apply dom_empty_L.
Qed.

(** A returning sequence of calls leaves the cells the list has, as many
    as the pushes outnumber the pops. *)
Lemma run_queue_owns (calls : list (queue_call T)) : forall q cells q',
  owns valid q cells ->
  run_queue sizeof_Node alignof_Node calls q = (Returns tt, q') ->
  exists cells',
    cells'.*2 = list_after calls (cells.*2) /\ owns valid q' cells' /\
    (length cells' + pops calls = length cells + pushes calls)%nat.
Proof.
  induction calls as [|[v|] calls IH]; intros q cells q' Ho Hrun.
  - simpl in Hrun. injection Hrun as <-. exists cells. simpl. auto.
  - simpl in Hrun. unfold bind, push in Hrun.
    destruct (emplace sizeof_Node alignof_Node v q) as [[[]|f|] q1] eqn:Ee;
      try discriminate.
    destruct (emplace_owns _ _ _ _ Ho Ee) as [new_node Ho1].
    destruct (IH _ _ _ Ho1 Hrun) as (cells' & Hc & Ho' & Hlen).
    exists cells'. split; [rewrite Hc, fmap_app; reflexivity|].
    split; [exact Ho'|].
    rewrite length_app in Hlen. simpl in *. lia.
  - simpl in Hrun. unfold bind in Hrun.
    destruct cells as [|[a v] rest].
    + rewrite (proj1 (pop_front_empty _ _ _ _ (proj1 Ho))) in Hrun. discriminate.
    + destruct (pop_owns _ _ _ _ Ho) as (q1 & Hp & Ho1).
      rewrite Hp in Hrun.
      destruct (IH _ _ _ Ho1 Hrun) as (cells' & Hc & Ho' & Hlen).
      exists cells'. split; [exact Hc|]. split; [exact Ho'|].
      simpl in *. lia.
Qed.

Lemma reached_queue_owns (resource : R) calls q :
  valid resource ∅ ->
  run_queue sizeof_Node alignof_Node calls (new_queue resource) = (Returns tt, q) ->
  exists cells,
    cells.*2 = list_after calls [] /\ owns valid q cells /\
    (length cells + pops calls = pushes calls)%nat.
Proof.
  intros Hv Hrun.
  destruct (run_queue_owns calls _ [] _ (new_queue_owns resource Hv) Hrun)
    as (cells & Hc & Ho & Hlen).
  exists cells. simpl in *. auto.
Qed.

(** X14: after any sequence of pushes and pops that all return, on a new
    queue over a lawful resource, the queue behaves as the list the same
    calls leave: iteration ends and visits the list in order, [front]
    returns its first value or throws on the empty list, and [empty] holds
    exactly for the empty list. *)
Theorem queue_behaves_as_list (resource : R) (calls : list (queue_call T)) q :
  valid resource ∅ ->
  run_queue sizeof_Node alignof_Node calls (new_queue resource) = (Returns tt, q) ->
  (forall fuel, (length (list_after calls []) <= fuel)%nat ->
     collect fuel q (begin q) = Some (Returns (list_after calls []))) /\
  front q = match list_after calls [] with
            | [] => (Throws EmptyContainer, q)
            | v :: _ => (Returns v, q)
            end /\
  (empty q = true <-> list_after calls [] = []).
Proof.
  intros Hv Hrun.
  destruct (reached_queue_owns resource calls q Hv Hrun) as (cells & Hc & [Hr _] & _).
  rewrite <- Hc. split; [|split].
  - intros fuel Hfuel. rewrite length_fmap in Hfuel.
    apply collect_linked; [apply Hr|exact Hfuel].
  - destruct cells as [|[a v] rest].
    + apply (pop_front_empty sizeof_Node alignof_Node valid q Hr).
    + apply (front_represents valid q a v rest Hr).
  - rewrite (represents_empty valid q cells Hr).
    destruct cells; simpl; split; congruence.
Qed.

(** X15: after a returning sequence of calls with as many pops as pushes,
    the queue is empty, and [pop] and [front] throw
    [std::out_of_range("Queue is empty")] and leave the queue as it is. *)
Theorem balanced_calls_leave_queue_empty (resource : R)
    (calls : list (queue_call T)) q :
  valid resource ∅ ->
  run_queue sizeof_Node alignof_Node calls (new_queue resource) = (Returns tt, q) ->
  pushes calls = pops calls ->
  empty q = true /\
  pop sizeof_Node alignof_Node q = (Throws EmptyContainer, q) /\
  front q = (Throws EmptyContainer, q) /\
  exception_of EmptyContainer = out_of_range "Queue is empty".
Proof.
  intros Hv Hrun Hbal.
  destruct (reached_queue_owns resource calls q Hv Hrun) as (cells & _ & [Hr _] & Hlen).
  assert (cells = []) as -> by (destruct cells; [reflexivity|simpl in Hlen; lia]).
  split; [apply (represents_empty valid q [] Hr); reflexivity|].
  destruct (pop_front_empty sizeof_Node alignof_Node valid q Hr) as [Hp Hf].
  auto.
Qed.

(** X16: a push whose allocation throws leaves the queue as the calls
    before it made it: the failure is the one [allocate] threw, iteration
    visits the same values and [front] answers as before. *)
Theorem failed_push_keeps_queue (resource : R) (calls : list (queue_call T))
    q (v : T) f q' :
  valid resource ∅ ->
  run_queue sizeof_Node alignof_Node calls (new_queue resource) = (Returns tt, q) ->
  push sizeof_Node alignof_Node v q = (Throws f, q') ->
  fst (allocate sizeof_Node alignof_Node (allocator_ q)) = Throws f /\
  (forall fuel, (length (list_after calls []) <= fuel)%nat ->
     collect fuel q' (begin q') = Some (Returns (list_after calls []))) /\
  fst (front q') = fst (front q) /\
  empty q' = empty q.
Proof.
  intros Hv Hrun Hpush.
  destruct (reached_queue_owns resource calls q Hv Hrun) as (cells & Hc & [Hr _] & _).
  pose proof (emplace_throws_represents _ _ _ _ _ _ _ _ Hr Hpush) as Hr'.
  split; [|split; [|split]].
  - revert Hpush. unfold push, emplace.
    destruct (allocate _ _ _) as [[new_node|f'|] r']; simpl.
    + destruct (tail_ q =? 0); [discriminate|]. destruct (_ !! _); discriminate.
    + intros Heq. injection Heq as <- _. reflexivity.
    + discriminate.
  - intros fuel Hfuel. rewrite <- Hc in *. rewrite length_fmap in Hfuel.
    apply collect_linked; [apply Hr'|exact Hfuel].
  - destruct cells as [|[a w] rest].
    + rewrite (proj2 (pop_front_empty sizeof_Node alignof_Node valid q Hr)).
      rewrite (proj2 (pop_front_empty sizeof_Node alignof_Node valid q' Hr')).
      reflexivity.
    + rewrite (front_represents valid q a w rest Hr).
      rewrite (front_represents valid q' a w rest Hr'). reflexivity.
  - destruct (empty q') eqn:E'; destruct (empty q) eqn:E; try reflexivity.
    + apply (represents_empty valid q' cells Hr') in E'.
      apply (represents_empty valid q cells Hr) in E'. congruence.
    + apply (represents_empty valid q cells Hr) in E.
      apply (represents_empty valid q' cells Hr') in E. congruence.
Qed.




End QueueHistories.

Lemma fresh_custom_valid cap :
  0 <= cap -> cap + 64 + 16 <= SizeT.modulus ->
  custom_valid 16 (fresh cap 4096) ∅.
Proof.
  intros Hcap Hw. unfold custom_valid, index_ok, fits_word. simpl.
  split; [exact Hcap|]. split; [split; [lia|exact Hw]|].
  split; [lia|]. intros p Hp. apply elem_of_empty in Hp. destruct Hp.
Qed.

Lemma queue_behaves_as_list_witness :
  let calls := [Push 1; Push 2; Pop; Push 3] in
  let q := snd (run_queue 16 8 calls (new_queue (fresh 512 4096))) in
  custom_valid 16 (fresh 512 4096) ∅ /\
  run_queue 16 8 calls (new_queue (fresh 512 4096)) = (Returns tt, q) /\
  (forall fuel, (length (list_after calls []) <= fuel)%nat ->
     collect fuel q (begin q) = Some (Returns (list_after calls []))) /\
  front q = match list_after calls [] with
            | [] => (Throws EmptyContainer, q)
            | v :: _ => (Returns v, q)
            end /\
  (empty q = true <-> list_after calls [] = []).
Proof.
  intros calls q.
  assert (Hv : custom_valid 16 (fresh 512 4096) ∅)
    by (apply fresh_custom_valid; [lia|vm_compute; discriminate]).
  assert (Hrun : run_queue 16 8 calls (new_queue (fresh 512 4096)) = (Returns tt, q))
    by (vm_compute; reflexivity).
  assert (Halign : 0 <= 8) by lia.
  split; [exact Hv|]. split; [exact Hrun|].
  exact (queue_behaves_as_list (lawful := custom_lawful 16 8 Halign)
           16 8 (custom_valid 16) (fresh 512 4096) calls q Hv Hrun).
Defined.

Lemma balanced_calls_leave_queue_empty_witness :
  let calls := [Push 1; Push 2; Pop; Push 3; Pop; Pop] in
  let q := snd (run_queue 16 8 calls (new_queue (fresh 512 4096))) in
  custom_valid 16 (fresh 512 4096) ∅ /\
  run_queue 16 8 calls (new_queue (fresh 512 4096)) = (Returns tt, q) /\
  pushes calls = pops calls /\
  empty q = true /\
  pop 16 8 q = (Throws EmptyContainer, q) /\
  front q = (Throws EmptyContainer, q) /\
  exception_of EmptyContainer = out_of_range "Queue is empty".
Proof.
  intros calls q.
  assert (Hv : custom_valid 16 (fresh 512 4096) ∅)
    by (apply fresh_custom_valid; [lia|vm_compute; discriminate]).
  assert (Hrun : run_queue 16 8 calls (new_queue (fresh 512 4096)) = (Returns tt, q))
    by (vm_compute; reflexivity).
  assert (Hbal : pushes calls = pops calls) by reflexivity.
  assert (Halign : 0 <= 8) by lia.
  split; [exact Hv|]. split; [exact Hrun|]. split; [exact Hbal|].
  exact (balanced_calls_leave_queue_empty (lawful := custom_lawful 16 8 Halign)
           16 8 (custom_valid 16) (fresh 512 4096) calls q Hv Hrun Hbal).
Defined.

Lemma failed_push_keeps_queue_witness :
  let calls := [Push 1; Push 2] in
  let q := snd (run_queue 16 8 calls (new_queue (fresh 32 4096))) in
  let q' := snd (push 16 8 3 q) in
  custom_valid 16 (fresh 32 4096) ∅ /\
  run_queue 16 8 calls (new_queue (fresh 32 4096)) = (Returns tt, q) /\
  push 16 8 3 q = (Throws OutOfMemory, q') /\
  fst (allocate 16 8 (allocator_ q)) = Throws OutOfMemory /\
  (forall fuel, (length (list_after calls []) <= fuel)%nat ->
     collect fuel q' (begin q') = Some (Returns (list_after calls []))) /\
  fst (front q') = fst (front q) /\
  empty q' = empty q.
Proof.
  intros calls q q'.
  assert (Hv : custom_valid 16 (fresh 32 4096) ∅)
    by (apply fresh_custom_valid; [lia|vm_compute; discriminate]).
  assert (Hrun : run_queue 16 8 calls (new_queue (fresh 32 4096)) = (Returns tt, q))
    by (vm_compute; reflexivity).
  assert (Hpush : push 16 8 3 q = (Throws OutOfMemory, q'))
    by (vm_compute; reflexivity).
  assert (Halign : 0 <= 8) by lia.
  split; [exact Hv|]. split; [exact Hrun|]. split; [exact Hpush|].
  exact (failed_push_keeps_queue (lawful := custom_lawful 16 8 Halign)
           16 8 (custom_valid 16) (fresh 32 4096) calls q 3 OutOfMemory q'
           Hv Hrun Hpush).
Defined.

(** ** The queue on CustomBlockMemoryResource *)









(** * Moving a queue *)

Section QueueMoveConstruction.
Context {T R : Type} `{memory_resource R}.
Variables sizeof_Node alignof_Node : Z.

(** X20: the move constructor hands the cells over and leaves a source
    that is safe to destroy.  The new object has the members the source
    had and with them its cells; resources and nodes are untouched; the
    source is empty on the same resource, and its destructor returns at
    once without a call on the resource, so that no node of the new object
    is released by it. *)
Theorem move_construct_transfers (s : Store T R) (this other : Z)
    (o : QueueObject) (r : R) (cells : list (Z * T)) :
  this <> other ->
  queues s !! other = Some o ->
  laid_out (node_store s) o cells ->
  resources s !! allocator_ptr o = Some r ->
  exists s' q,
    move_construct this other s = (Returns tt, s') /\
    queues s' !! this = Some o /\
    laid_out (node_store s') o cells /\
    resources s' = resources s /\ node_store s' = node_store s /\
    queues s' !! other = Some (moved_from o) /\
    view s' (moved_from o) = Some q /\
    empty q = true /\
    forall fuel, destroy_all sizeof_Node alignof_Node fuel q = Some (Returns tt, q).
Proof.
  intros Hne Ho Hlaid Hr. unfold move_construct. rewrite Ho.
  eexists. eexists. split; [reflexivity|]. simpl.
  split; [rewrite lookup_insert_ne by congruence; apply lookup_insert_eq|].
  split; [exact Hlaid|]. split; [reflexivity|]. split; [reflexivity|].
  split; [apply lookup_insert_eq|].
  unfold view. simpl. rewrite Hr.
  split; [reflexivity|]. split; [reflexivity|].
  intros fuel. destruct fuel; reflexivity.
Qed.
End QueueMoveConstruction.

Lemma move_construct_transfers_witness :
  let r := with_blocks (fresh 512 4096) [ {| offset := 0; size := 16 |} ] in
  let o := {| allocator_ptr := 1000; head_ptr := 4096; tail_ptr := 4096;
              size_count := 1 |} in
  let s := {| resources := {[ 1000 := r ]};
              node_store := <[4096 := {| value := 7; next := 0 |}]> ∅;
              queues := <[2 := o]> ∅ |} in
  let cells := [(4096, 7)] in
  1 <> 2 /\
  queues s !! 2 = Some o /\
  laid_out (node_store s) o cells /\
  resources s !! allocator_ptr o = Some r /\
  exists s' q,
    move_construct 1 2 s = (Returns tt, s') /\
    queues s' !! 1 = Some o /\
    laid_out (node_store s') o cells /\
    resources s' = resources s /\ node_store s' = node_store s /\
    queues s' !! 2 = Some (moved_from o) /\
    view s' (moved_from o) = Some q /\
    empty q = true /\
    forall fuel, destroy_all 16 8 fuel q = Some (Returns tt, q).
Proof.
  intros r o s cells.
  assert (Hne : 1 <> 2) by lia.
  assert (Ho : queues s !! 2 = Some o) by reflexivity.
  assert (Hlaid : laid_out (node_store s) o cells).
  { split; [|split; [|split; reflexivity]].
    - simpl. split; [reflexivity|]. split; [lia|].
      exists 0. split; reflexivity.
    - simpl. apply NoDup_singleton. }
  assert (Hr : resources s !! allocator_ptr o = Some r) by reflexivity.
  repeat (split; [assumption|]).
  exact (move_construct_transfers 16 8 s 1 2 o r cells Hne Ho Hlaid Hr).
Defined.
